(** * sinksmtp: rule evaluation and mail-domain validity

    A shallow embedding of the rule-expression evaluator ([Expr.Eval],
    [Rule.check]) and of the DNS mail-domain classifier ([checkIP],
    [ValidDomain]), with the properties the specification states about them.

    Conventions.
    - Go strings are byte strings: [string].
    - Go [int] values that are compared or used as indices are in [Z].
    - The [Option] bitmask ([uint64]) is an [N]; only the bit operations
      [N.land] and [N.lor] are used on it, which cannot overflow.
    - A Go panic (slice bounds out of range) is the outcome [Panic].
    - Calls to the collaborators (pattern source, DNS blocklist probe, DNS
      resolver) are answered by an environment record and logged in a trace,
      so that "is not evaluated" and "is visited" can be stated. *)

From Stdlib Require Import ZArith NArith Ascii String List Lia Bool Permutation.
From stdpp Require Import base gmap sets list strings pretty sorting.

Local Open Scope string_scope.
Local Open Scope list_scope.
Local Set Warnings "-register-all".

(* ===================================================================== *)
(** ** Go string primitives *)
(* ===================================================================== *)

Module GoStr.

(** [len(s)] as a Go [int]. *)
Definition len (s : string) : Z := Z.of_nat (String.length s).

(** [strings.Split(s, sep)] for a one-byte separator: the fields between
    the separators, always at least one field. *)
Fixpoint Split (sep : ascii) (s : string) : list string :=
  match s with
  | EmptyString => [EmptyString]
  | String ch rest =>
      if Ascii.eqb ch sep then EmptyString :: Split sep rest
      else match Split sep rest with
           | [] => [String ch EmptyString]
           | fld :: flds => String ch fld :: flds
           end
  end.

(** [strings.IndexByte(s, c)]: index of the first [c] in [s], or -1. *)
Fixpoint IndexByte (s : string) (c : ascii) : Z :=
  match s with
  | EmptyString => (-1)%Z
  | String ch rest =>
      if Ascii.eqb ch c then 0%Z
      else let i := IndexByte rest c in
           if (i <? 0)%Z then (-1)%Z else (i + 1)%Z
  end.

(** The slice expression [s[:hi]]; out of range is a run-time panic,
    here [None]. *)
Definition sliceTo (s : string) (hi : Z) : option string :=
  if ((hi <? 0) || (len s <? hi))%Z then None
  else Some (String.substring 0 (Z.to_nat hi) s).

(** The slice expression [s[lo:]]. *)
Definition sliceFrom (s : string) (lo : Z) : option string :=
  if ((lo <? 0) || (len s <? lo))%Z then None
  else Some (String.substring (Z.to_nat lo) (String.length s - Z.to_nat lo) s).

(** [strings.ToLower] on the ASCII letters. Go also maps letters outside
    ASCII; no such letter maps into the bytes of "." or "localhost.", the
    only strings its result is compared with here. *)
Definition lowerByte (ch : ascii) : ascii :=
  let n := nat_of_ascii ch in
  if (65 <=? n)%nat && (n <=? 90)%nat then ascii_of_nat (n + 32) else ch.

Fixpoint ToLower (s : string) : string :=
  match s with
  | EmptyString => EmptyString
  | String ch rest => String (lowerByte ch) (ToLower rest)
  end.

End GoStr.

(* ===================================================================== *)
(** ** Enumerations and the option bitmask *)
(* ===================================================================== *)

(** [Phase]: the SMTP conversation phase; [pAny] is the zero value. *)
Inductive Phase := pAny | pConnect | pHelo | pMfrom | pRto | pData | pMessage.

(** [Action]: from weakest to strongest. *)
Inductive Action := aError | aNoresult | aAccept | aStall | aReject.

(** [Option] is a [uint64] bitmap; the constants are [1 << iota]. *)
Definition Option := N.

Definition bit (i : N) : Option := N.shiftl 1 i.

Definition oZero : Option := 0%N.
Definition oHelo : Option := bit 1.
Definition oEhlo : Option := bit 2.
Definition oNone : Option := bit 3.
Definition oBogus : Option := bit 4.
Definition oNodots : Option := bit 5.
Definition oBareip : Option := bit 6.
Definition oProperip : Option := bit 7.
Definition oMyip : Option := bit 8.
Definition oRemip : Option := bit 9.
Definition oOtherip : Option := bit 10.
Definition oNodns : Option := bit 11.
Definition oInconsist : Option := bit 12.
Definition oNofwd : Option := bit 13.
Definition oGood : Option := bit 14.
Definition oExists : Option := bit 15.
Definition oUnqualified : Option := bit 16.
Definition oRoute : Option := bit 17.
Definition oQuoted : Option := bit 18.
Definition oNoat : Option := bit 19.
Definition oGarbage : Option := bit 20.
Definition oDomainValid : Option := bit 21.
Definition oDomainInvalid : Option := bit 22.
Definition oDomainTempfail : Option := bit 23.
Definition oHost : Option := bit 24.
Definition oFrom : Option := bit 25.

Definition oBad : Option :=
  N.lor (N.lor (N.lor oUnqualified oRoute) oNoat) oGarbage.
Definition oIp : Option := N.lor oBareip oProperip.
Definition oAny : Option := N.lor (N.lor oHost oEhlo) oFrom.

(* ===================================================================== *)
(** ** The evaluation context *)
(* ===================================================================== *)

(** The reverse-DNS name lists of the connection ([c.trans.rdns]). *)
Record rDNSResults := {
  verified : list string;
  nofwd : list string;
  inconsist : list string
}.

(** The part of the SMTP transaction the rules read ([c.trans]). *)
Record smtpTransaction := {
  rip : string;
  tlson : bool;
  rdns : rDNSResults
}.

(** Modelled from the spec: the [Context] struct is declared outside the
    given sources; its fields are the ones the evaluator reads and writes
    ([c.trans], [c.heloname], [c.from], [c.rcptto], [c.withprops],
    [c.rulemiss]) and the ordered log of blocklist domains that hit, which
    the evaluator reaches through [addDnsblHit]. *)
Record Context := {
  trans : smtpTransaction;
  heloname : string;
  from : string;
  rcptto : string;
  withprops : gmap string string;
  rulemiss : bool;
  dnsblhit : list string
}.

Definition set_rulemiss (b : bool) (c : Context) : Context :=
  {| trans := trans c; heloname := heloname c; from := from c;
     rcptto := rcptto c; withprops := withprops c; rulemiss := b;
     dnsblhit := dnsblhit c |}.

Definition set_withprops (m : gmap string string) (c : Context) : Context :=
  {| trans := trans c; heloname := heloname c; from := from c;
     rcptto := rcptto c; withprops := m; rulemiss := rulemiss c;
     dnsblhit := dnsblhit c |}.

Definition set_dnsblhit (l : list string) (c : Context) : Context :=
  {| trans := trans c; heloname := heloname c; from := from c;
     rcptto := rcptto c; withprops := withprops c; rulemiss := rulemiss c;
     dnsblhit := l |}.

(** Modelled from the spec: [addDnsblHit] is defined outside the given
    sources; on a hit the matcher "records the domain in the DNSBL-hit
    log", an ordered log, so the domain is appended. *)
Definition addDnsblHit (domain : string) (c : Context) : Context :=
  set_dnsblhit (dnsblhit c ++ [domain]) c.

(** The collaborators the evaluator consults. They are defined outside the
    given sources and are taken as parameters:
    - [getMatchList arg]: the pattern source, resolving a match argument
      (a literal or a file reference) into an ordered pattern list;
    - [getDnsblRes name]: the "is this name listed" DNS probe;
    - [getAddrOpts addr c]: the address attribute classifier;
    - [matchHost], [matchAddress], [matchIp]: literal-against-pattern
      matching;
    - [heloGetter], [dnsGetter]: the HELO and reverse-DNS classifiers;
    - [rangeOrder s]: the order in which a Go [range] over a map with key
      set [s] yields the keys. Go leaves it unspecified; it is meaningful
      when it enumerates [s], see [rangeOrder_ok]. *)
Record Collab := {
  getMatchList : string -> list string;
  getDnsblRes : string -> bool;
  getAddrOpts : string -> Context -> Option;
  matchHost : string -> string -> bool;
  matchAddress : string -> string -> bool;
  matchIp : string -> string -> bool;
  heloGetter : Context -> Option;
  dnsGetter : Context -> Option;
  rangeOrder : gset string -> list string
}.

Definition rangeOrder_ok (E : Collab) : Prop :=
  forall s : gset string, rangeOrder E s ≡ₚ elements s.

(** What the evaluator asks of its collaborators, in order. *)
Inductive Event :=
| EvMatchList (arg : string)
| EvDnsblRes (name : string).

(** The state an evaluation runs in: the context and the collaborator
    calls made so far. *)
Record World := {
  ctx : Context;
  calls : list Event
}.

(** An evaluation step either returns a value in a new state or panics. *)
Inductive Outcome (A : Type) :=
| Ret (a : A) (w : World)
| Panic.
Arguments Ret {A} a w.
Arguments Panic {A}.

Definition M (A : Type) := World -> Outcome A.

Definition ret {A} (a : A) : M A := fun w => Ret a w.

Definition bind {A B} (m : M A) (k : A -> M B) : M B :=
  fun w => match m w with
           | Ret a w' => k a w'
           | Panic => Panic
           end.

Definition panic {A} : M A := fun _ => Panic.

Declare Scope go_scope.
Delimit Scope go_scope with go.
Notation "x <- m ;; k" := (bind m (fun x => k))
  (at level 100, m at next level, right associativity) : go_scope.
Notation "m ;;; k" := (bind m (fun _ => k))
  (at level 100, right associativity) : go_scope.

(** Reading and updating the context. *)
Definition getCtx : M Context := fun w => Ret (ctx w) w.

Definition modifyCtx (f : Context -> Context) : M unit :=
  fun w => Ret tt {| ctx := f (ctx w); calls := calls w |}.

Definition emit (e : Event) : M unit :=
  fun w => Ret tt {| ctx := ctx w; calls := calls w ++ [e] |}.

(** A value that may have panicked. *)
Definition orPanic {A} (o : option A) : M A :=
  match o with
  | Some a => ret a
  | None => panic
  end.

(** [c.getMatchList(arg)] and [c.getDnsblRes(name)]: ask and log. *)
Definition callMatchList (E : Collab) (arg : string) : M (list string) :=
  (emit (EvMatchList arg) ;;; ret (getMatchList E arg))%go.

Definition callDnsblRes (E : Collab) (name : string) : M bool :=
  (emit (EvDnsblRes name) ;;; ret (getDnsblRes E name))%go.

(* ===================================================================== *)
(** ** Rule expressions *)
(* ===================================================================== *)

(** [Expr]: the AST nodes. A [MatchN] carries its matching function and its
    getter as the Go struct does. *)
Inductive Expr :=
| AndL (nodes : list Expr)
| NotN (node : Expr)
| OrN (left right : Expr)
| AllN
| TlsN (on : bool)
| DNSblN (domain : string)
| MatchN (what arg : string)
         (matcher : string -> string -> bool)
         (getter : Context -> list string)
| matchSource (arg : string) (host ehlo from_ : Expr)
| DblNode (domain : string) (src : Option)
| OptionN (what : string) (opts : Option) (getter : Context -> Option).

(** [RClause]: one expression and its with-options. *)
Record RClause := {
  expr : Expr;
  withs : gmap string string
}.

(** [Rule]. *)
Record Rule := {
  clauses : list RClause;
  result : Action;
  requires : Phase;
  deferto : Phase
}.

(** An indexing expression [s[i]] on a slice: out of range panics. *)
Definition index (s : list string) (i : nat) : M string := orPanic (s !! i).

(** [DNSblN.Eval]. *)
Definition DNSblN_Eval (E : Collab) (domain : string) : M bool :=
  (c <- getCtx ;;
   if String.eqb (rip (trans c)) EmptyString then ret false
   else
     let s := GoStr.Split "." (rip (trans c)) in
     (* We currently only work on IPv4 addresses. *)
     if negb (Nat.eqb (length s) 4) then ret false
     else
       s3 <- index s 3 ;; s2 <- index s 2 ;;
       s1 <- index s 1 ;; s0 <- index s 0 ;;
       let ln := s3 +:+ "." +:+ s2 +:+ "." +:+ s1 +:+ "." +:+ s0 +:+ "." +:+ domain in
       res <- callDnsblRes E ln ;;
       if res then (modifyCtx (addDnsblHit domain) ;;; ret res)
       else ret res)%go.

(** [MatchN.Eval]. The two nested loops return at the first literal and
    pattern that match; matcher and getter have no effect, so the loops are
    the nested [existsb]. *)
Definition MatchN_Eval (E : Collab) (arg : string)
    (matcher : string -> string -> bool)
    (getter : Context -> list string) : M bool :=
  (plist <- callMatchList E arg ;;
   if Nat.eqb (length plist) 0 then
     (modifyCtx (set_rulemiss true) ;;; ret false)
   else
     c <- getCtx ;;
     ret (existsb (fun p => existsb (fun e => matcher e p) (getter c)) plist))%go.

(** [s[:len(s)-1]]: DNS names have a trailing '.', which is removed. *)
Definition chopDot (s : string) : option string :=
  GoStr.sliceTo s (GoStr.len s - 1).

(** [for _, s := range names { check[s[:len(s)-1]] = struct{}{} }]. *)
Fixpoint addChopped (names : list string) (check : gset string)
  : option (gset string) :=
  match names with
  | [] => Some check
  | s :: rest =>
      match chopDot s with
      | Some t => addChopped rest ({[ t ]} ∪ check)
      | None => None
      end
  end.

(** The first part of [DblNode.Eval]: the map [check] of names to probe.
    [None] when a slice expression panics. *)
Definition DblNode_check (E : Collab) (src : Option) (c : Context)
  : option (gset string) :=
  let check0 : gset string := ∅ in
  let check1 :=
    if negb (N.eqb (N.land src (N.lor oEhlo oHelo)) 0)
       && negb (String.eqb (heloname c) EmptyString)
    then {[ heloname c ]} ∪ check0 else check0 in
  match
    (if N.eqb (N.land src oHost) oHost then
       match addChopped (verified (rdns (trans c))) check1 with
       | Some ck =>
           match addChopped (nofwd (rdns (trans c))) ck with
           | Some ck' => addChopped (inconsist (rdns (trans c))) ck'
           | None => None
           end
       | None => None
       end
     else Some check1)
  with
  | None => None
  | Some check2 =>
      if N.eqb (N.land src oFrom) oFrom && negb (String.eqb (from c) EmptyString)
      then
        let aopt := getAddrOpts E (from c) c in
        if negb (N.eqb (N.land aopt
                   (N.lor (N.lor oDomainValid oDomainInvalid) oDomainTempfail)) 0)
        then
          let idx := GoStr.IndexByte (from c) "@" in
          match GoStr.sliceFrom (from c) (idx + 1) with
          | Some t => Some ({[ t ]} ∪ check2)
          | None => None
          end
        else Some check2
      else Some check2
  end.

(** The second part of [DblNode.Eval]: every name is probed, in the order
    the [range] yields them; [ret] accumulates the result. *)
Fixpoint DblNode_probe (E : Collab) (domain : string) (keys : list string)
    (ret_ : bool) : M bool :=
  match keys with
  | [] => ret ret_
  | s :: rest =>
      (res <- callDnsblRes E (s +:+ "." +:+ domain) ;;
       if res then
         (modifyCtx (addDnsblHit domain) ;;; DblNode_probe E domain rest true)
       else DblNode_probe E domain rest ret_)%go
  end.

(** [DblNode.Eval]. *)
Definition DblNode_Eval (E : Collab) (domain : string) (src : Option) : M bool :=
  (c <- getCtx ;;
   check <- orPanic (DblNode_check E src c) ;;
   if Nat.eqb (size check) 0 then ret false
   else DblNode_probe E domain (rangeOrder E check) false)%go.

(** [Eval], by cases on the node as Go dispatches on its dynamic type. *)
Fixpoint Eval (E : Collab) (e : Expr) {struct e} : M bool :=
  match e with
  | AndL nodes =>
      (fix loop (ns : list Expr) : M bool :=
         match ns with
         | [] => ret true
         | n :: ns' =>
             (r <- Eval E n ;;
              if negb r then ret r else loop ns')%go
         end) nodes
  | NotN node => (r <- Eval E node ;; ret (negb r))%go
  | OrN lft rgt =>
      (r <- Eval E lft ;;
       if r then ret r else Eval E rgt)%go
  | AllN => ret true
  | TlsN on => (c <- getCtx ;; ret (Bool.eqb on (tlson (trans c))))%go
  | DNSblN domain => DNSblN_Eval E domain
  | MatchN _ arg matcher getter => MatchN_Eval E arg matcher getter
  | matchSource _ host ehlo from_ =>
      (a <- Eval E host ;;
       ab <- (if a then ret true else Eval E ehlo) ;;
       if ab then ret true else Eval E from_)%go
  | DblNode domain src => DblNode_Eval E domain src
  | OptionN _ opts getter =>
      (c <- getCtx ;; ret (N.ltb 0 (N.land opts (getter c))))%go
  end.

(** The loop of [AndL.Eval], named. *)
Fixpoint AndL_loop (E : Collab) (ns : list Expr) : M bool :=
  match ns with
  | [] => ret true
  | n :: ns' =>
      (r <- Eval E n ;;
       if negb r then ret r else AndL_loop E ns')%go
  end.

(** The node constructors. *)
Definition newHeloNode (E : Collab) (arg : string) : Expr :=
  MatchN "helo" arg (matchHost E) (fun c => [heloname c]).

Definition newHostNode (E : Collab) (arg : string) : Expr :=
  MatchN "host" arg (matchHost E) (fun c => verified (rdns (trans c))).

Definition newFromNode (E : Collab) (arg : string) : Expr :=
  MatchN "from" arg (matchAddress E) (fun c => [from c]).

Definition newToNode (E : Collab) (arg : string) : Expr :=
  MatchN "to" arg (matchAddress E) (fun c => [rcptto c]).

Definition newIPNode (E : Collab) (arg : string) : Expr :=
  MatchN "ip" arg (matchIp E) (fun c => [rip (trans c)]).

(** [matchFromHost]: '@' is glued on front of the host pattern. *)
Definition matchFromHost (E : Collab) (addr host : string) : bool :=
  matchAddress E addr ("@" +:+ host).

Definition newSourceNode (E : Collab) (arg : string) : Expr :=
  matchSource arg (newHostNode E arg) (newHeloNode E arg)
    (MatchN "source_from" arg (matchFromHost E) (fun c => [from c])).

Definition newDblNode (typ : Option) (arg : string) : Expr :=
  DblNode arg typ.

(** [for k, v := range withs { c.withprops[k] = v }]. The keys of a map are
    distinct, so the order of the assignments does not matter. *)
Definition mergeWiths (withs_ : gmap string string) (c : Context) : Context :=
  set_withprops
    (map_fold (fun k v acc => <[ k := v ]> acc) (withprops c) withs_) c.

(** The loop of [Rule.check]. *)
Fixpoint check_loop (E : Collab) (cls : list RClause) : M bool :=
  match cls with
  | [] => ret false
  | cl :: rest =>
      (res <- Eval E (expr cl) ;;
       c <- getCtx ;;
       if rulemiss c then
         (* the results on a rulemiss don't matter, since we're skipping
            this rule anyways. *)
         ret false
       else if negb res then check_loop E rest
       else (modifyCtx (mergeWiths (withs cl)) ;;; ret res))%go
  end.

(** [Rule.check]. *)
Definition check (E : Collab) (r : Rule) : M bool :=
  (modifyCtx (set_rulemiss false) ;;; check_loop E (clauses r))%go.

(* ===================================================================== *)
(** ** Mail-domain validity *)
(* ===================================================================== *)

(** [dnsResult] is a Go [int]; the constants are in order from bad to good
    and are compared as integers. *)
Definition dnsResult := Z.

Definition dnsUndef : dnsResult := 0%Z.
Definition dnsBad : dnsResult := 1%Z.
Definition dnsTempfail : dnsResult := 2%Z.
Definition dnsGood : dnsResult := 3%Z.

(** [net.DNSError], with the fields the code reads. *)
Record DNSError := {
  Err : string;
  Name : string;
  Server : string;
  IsTimeout : bool;
  IsTemporary : bool
}.

(** A Go [error] value: a pointer to a [net.DNSError], or an error that carries only
    its text (as [fmt.Errorf] makes). *)
Inductive error :=
| DNSErr (e : DNSError)
| errorString (msg : string).

(** The method [Temporary] of [net.DNSError]. *)
Definition Temporary (e : DNSError) : bool := IsTimeout e || IsTemporary e.

(** The method [Error] of [net.DNSError], and of any [error]. *)
Definition DNSError_Error (e : DNSError) : string :=
  let s := "lookup " +:+ Name e in
  let s := if String.eqb (Server e) EmptyString then s else s +:+ " on " +:+ Server e in
  s +:+ ": " +:+ Err e.

Definition Error (e : error) : string :=
  match e with
  | DNSErr d => DNSError_Error d
  | errorString msg => msg
  end.

Definition serverrstr : string := "server misbehaving".

(** [isTemporary]. *)
Definition isTemporary (err : error) : bool :=
  match err with
  | DNSErr e => Temporary e || String.eqb (Err e) serverrstr
  | errorString _ => false
  end.

(** [net.MX]. *)
Record MX := {
  Host : string;
  Pref : N
}.

(** [net.IP]: the bytes of an address. *)
Definition IP := list N.

(** The address blocks the package parses once with [net.ParseCIDR]. *)
Inductive IPNet := net10 | net172 | net192 | ipv6private | ipv6siteloc.

(** The resolver and the address predicates of Go's [net] package, taken as
    parameters. A lookup returns its records and its error, as in Go. *)
Record Resolver := {
  LookupMX : string -> list MX * option error;
  LookupIP : string -> list IP * option error;
  IsGlobalUnicast : IP -> bool;
  Contains : IPNet -> IP -> bool;
  IP_String : IP -> string
}.

(** The lookups made, in order. *)
Inductive NetCall :=
| CallLookupMX (name : string)
| CallLookupIP (name : string).

Definition Verdict : Type := dnsResult * option error.

(** The address loop of [checkIP]. *)
Fixpoint checkIP_addrs (R : Resolver) (domain : string) (addrs : list IP)
  : Verdict :=
  match addrs with
  | [] => (dnsGood, None)
  | i :: rest =>
      if negb (IsGlobalUnicast R i) then
        (dnsBad, Some (errorString
           ("host " +:+ domain +:+ " IP " +:+ IP_String R i +:+ " not global unicast")))
      else if Contains R net10 i || Contains R net172 i || Contains R net192 i
              || Contains R ipv6private i || Contains R ipv6siteloc i then
        (dnsBad, Some (errorString
           ("host " +:+ domain +:+ " IP " +:+ IP_String R i +:+ " is in bad address space")))
      else checkIP_addrs R domain rest
  end.

(** [checkIP]: one [net.LookupIP] call, logged in the trace. *)
Definition checkIP (R : Resolver) (domain : string) (tr : list NetCall)
  : Verdict * list NetCall :=
  let tr' := tr ++ [CallLookupIP domain] in
  let '(addrs, err) := LookupIP R domain in
  match err with
  | Some e =>
      if isTemporary e then ((dnsTempfail, Some e), tr')
      else ((dnsBad, Some e), tr')
  | None =>
      if Nat.eqb (length addrs) 0 then
        ((dnsBad, Some (errorString (domain +:+ ": no IPs"))), tr')
      else (checkIP_addrs R domain addrs, tr')
  end.

(** The MX loop of [ValidDomain]; [valid] and [verr] are the loop's
    variables. *)
Fixpoint ValidDomain_loop (R : Resolver) (domain : string) (mxs : list MX)
    (valid : dnsResult) (verr : option error) (tr : list NetCall)
  : Verdict * list NetCall :=
  match mxs with
  | [] => ((valid, verr), tr)
  | m :: rest =>
      if String.eqb (Host m) "." && N.eqb (Pref m) 0 then
        ((dnsBad, Some (errorString (domain +:+ ": RFC 7505 null MX"))), tr)
      else
        let lc := GoStr.ToLower (Host m) in
        if String.eqb lc "." || String.eqb lc "localhost." then
          ((dnsBad, Some (errorString
              ("rejecting bogus MX " +:+ pretty (Pref m) +:+ " " +:+ Host m))), tr)
        else
          let '((v, err), tr') := checkIP R (Host m) tr in
          if (valid <? v)%Z then ValidDomain_loop R domain rest v err tr'
          else ValidDomain_loop R domain rest valid verr tr'
  end.

(** [ValidDomain]. *)
Definition ValidDomain (R : Resolver) (domain : string) (tr : list NetCall)
  : Verdict * list NetCall :=
  let tr' := tr ++ [CallLookupMX (domain +:+ ".")] in
  let '(mxs, err) := LookupMX R (domain +:+ ".") in
  match err with
  | Some e =>
      if isTemporary e then
        ((dnsTempfail, Some (errorString ("MX tempfail: " +:+ Error e))), tr')
      else
        (* No MX entry? Fall back to A record lookup. *)
        checkIP R (domain +:+ ".") tr'
  | None =>
      (* we start with no DNS results at all. *)
      ValidDomain_loop R domain mxs dnsUndef None tr'
  end.

(* ===================================================================== *)
(** ** Specification-side definitions *)
(* ===================================================================== *)

(** The from-style matcher of the expansion of [source HPAT]: it matches
    the MAIL FROM address against '@' prepended to each resolved pattern. *)
Definition fromAtNode (E : Collab) (arg : string) : Expr :=
  MatchN "from" arg (fun addr p => matchAddress E addr ("@" +:+ p))
         (fun c => [from c]).

(** [source HPAT] as the specification words it:
    [(host HPAT or helo HPAT or from "@"+HPAT)], written with [OrN]. *)
Definition sourceAsOr (E : Collab) (arg : string) : Expr :=
  OrN (newHostNode E arg) (OrN (newHeloNode E arg) (fromAtNode E arg)).

(** The same expansion with the other grouping of the two [or]s. *)
Definition sourceAsOrLeft (E : Collab) (arg : string) : Expr :=
  OrN (OrN (newHostNode E arg) (newHeloNode E arg)) (fromAtNode E arg).

(** The clauses [cls] are evaluated in order from [w]: none of them matches
    and none raises the data-unavailable signal; the state afterwards. *)
Fixpoint passOver (E : Collab) (cls : list RClause) (w : World)
  : option World :=
  match cls with
  | [] => Some w
  | cl :: rest =>
      match Eval E (expr cl) w with
      | Ret false w' => if rulemiss (ctx w') then None else passOver E rest w'
      | _ => None
      end
  end.

(** A state with another context. *)
Definition withCtx (f : Context -> Context) (w : World) : World :=
  {| ctx := f (ctx w); calls := calls w |}.

(** The collaborators [E] with another map iteration order. *)
Definition withOrder (E : Collab) (ord : gset string -> list string) : Collab :=
  {| getMatchList := getMatchList E; getDnsblRes := getDnsblRes E;
     getAddrOpts := getAddrOpts E; matchHost := matchHost E;
     matchAddress := matchAddress E; matchIp := matchIp E;
     heloGetter := heloGetter E; dnsGetter := dnsGetter E;
     rangeOrder := ord |}.

(** The three reverse-DNS name lists, in the order the code walks them. *)
Definition rdnsNames (c : Context) : list string :=
  verified (rdns (trans c)) ++ nofwd (rdns (trans c))
    ++ inconsist (rdns (trans c)).

(** The probe [DblNode.Eval] makes for a candidate name. *)
Definition dblQuery (domain s : string) : string := s +:+ "." +:+ domain.

(** A computation that leaves the accumulated with-properties alone. *)
Definition keepsWithprops {A} (m : M A) : Prop :=
  forall w a w', m w = Ret a w' -> withprops (ctx w') = withprops (ctx w).

(** Whether the blocklist lists the candidate [s], and how many of the
    candidates [keys] it lists. *)
Definition dblListed (E : Collab) (domain s : string) : bool :=
  getDnsblRes E (dblQuery domain s).

Definition countHits (E : Collab) (domain : string) (keys : list string) : nat :=
  length (List.filter (dblListed E domain) keys).

(** The probes for the candidates [keys], one for each. *)
Definition probeEvents (domain : string) (keys : list string) : list Event :=
  map (fun s => EvDnsblRes (dblQuery domain s)) keys.

(** The tests [ValidDomain] makes on one MX record before resolving it. *)
Definition nullMX (m : MX) : Prop := Host m = "." /\ Pref m = 0%N.

Definition bogusTarget (m : MX) : Prop :=
  GoStr.ToLower (Host m) = "." \/ GoStr.ToLower (Host m) = "localhost.".

(** [checkIP(target)] for an MX record: classification and error. *)
Definition targetVerdict (R : Resolver) (m : MX) : Verdict :=
  fst (checkIP R (Host m) []).

(** A record that makes [ValidDomain] reject the domain at once. *)
Definition rejectsDomain (m : MX) : Prop := nullMX m \/ bogusTarget m.

(** The best classification among the targets, from [dnsUndef] up. *)
Definition bestClass (R : Resolver) (mxs : list MX) : dnsResult :=
  fold_right Z.max dnsUndef (map (fun m => fst (targetVerdict R m)) mxs).

(** The address lookups for the targets [mxs], one for each, in order. *)
Definition targetLookups (mxs : list MX) : list NetCall :=
  map (fun m => CallLookupIP (Host m)) mxs.

(** [newRClause]: a clause with an empty with-map (and no expression yet;
    the parser fills it in, here the argument). *)
Definition newRClause (e : Expr) : RClause := {| expr := e; withs := ∅ |}.

(** [Rule.addclause]: [r.clauses = append(r.clauses, rc)]. *)
Definition addclause (r : Rule) (rc : RClause) : Rule :=
  {| clauses := clauses r ++ [rc]; result := result r;
     requires := requires r; deferto := deferto r |}.

(** [w'] continues [w]: the connection data and the with-properties are
    the same, the data-unavailable signal was not cleared, and the hit log
    and the call log were only appended to. *)
Record extends (w w' : World) : Prop := {
  ext_trans : trans (ctx w') = trans (ctx w);
  ext_heloname : heloname (ctx w') = heloname (ctx w);
  ext_from : from (ctx w') = from (ctx w);
  ext_rcptto : rcptto (ctx w') = rcptto (ctx w);
  ext_withprops : withprops (ctx w') = withprops (ctx w);
  ext_rulemiss : rulemiss (ctx w) = true -> rulemiss (ctx w') = true;
  ext_dnsblhit : exists hits, dnsblhit (ctx w') = dnsblhit (ctx w) ++ hits;
  ext_calls : exists evs, calls w' = calls w ++ evs
}.

(** A computation whose final state continues its initial state. *)
Definition steady {A} (m : M A) : Prop :=
  forall w a w', m w = Ret a w' -> extends w w'.

(** A computation that returns from every state with no empty reverse-DNS
    name. *)
Definition returns {A} (m : M A) : Prop :=
  forall w, EmptyString ∉ rdnsNames (ctx w) -> exists a w', m w = Ret a w'.

(** The number of bytes [c] in [s]. *)
Fixpoint countByte (c : ascii) (s : string) : nat :=
  match s with
  | EmptyString => 0
  | String ch rest => (if Ascii.eqb ch c then 1 else 0) + countByte c rest
  end.

(** The resolver [R] with another answer to MX queries. *)
Definition withMX (R : Resolver) (mx : string -> list MX * option error)
  : Resolver :=
  {| LookupMX := mx; LookupIP := LookupIP R;
     IsGlobalUnicast := IsGlobalUnicast R; Contains := Contains R;
     IP_String := IP_String R |}.

(** An address [checkIP] accepts: global unicast and in none of the five
    private blocks. *)
Definition acceptableIP (R : Resolver) (i : IP) : Prop :=
  IsGlobalUnicast R i = true /\ forall n : IPNet, Contains R n i = false.

(** A classification and an error that go together: no error exactly for
    good (and for the starting value). *)
Definition consistent (v : Verdict) : Prop :=
  snd v = None <-> (fst v = dnsGood \/ fst v = dnsUndef).

(** [pMap] and [aMap], as association lists, and the lookup of a Go map:
    a missing key yields the zero value, the empty string. *)
Definition pMap : list (Phase * string) :=
  [ (pAny, "@any"); (pConnect, "@connect"); (pHelo, "@helo");
    (pMfrom, "@from"); (pRto, "@to"); (pData, "@data");
    (pMessage, "@message") ].

Definition aMap : list (Action * string) :=
  [ (aError, "ERROR"); (aAccept, "accept"); (aReject, "reject");
    (aStall, "stall"); (aNoresult, "set-with") ].

Definition Phase_eqb (p q : Phase) : bool :=
  match p, q with
  | pAny, pAny | pConnect, pConnect | pHelo, pHelo | pMfrom, pMfrom
  | pRto, pRto | pData, pData | pMessage, pMessage => true
  | _, _ => false
  end.

Definition Action_eqb (a b : Action) : bool :=
  match a, b with
  | aError, aError | aNoresult, aNoresult | aAccept, aAccept
  | aStall, aStall | aReject, aReject => true
  | _, _ => false
  end.

Fixpoint mapIndex {K} (eqb : K -> K -> bool) (m : list (K * string)) (k : K)
  : string :=
  match m with
  | [] => EmptyString
  | (k', v) :: rest => if eqb k' k then v else mapIndex eqb rest k
  end.

(** [Phase.String] and [Action.String]. *)
Definition Phase_String (p : Phase) : string := mapIndex Phase_eqb pMap p.

Definition Action_String (a : Action) : string := mapIndex Action_eqb aMap a.

(* ===================================================================== *)
(** ** Rendering rules as text *)
(* ===================================================================== *)

(** [strings.Join]. *)
Fixpoint Join (l : list string) (sep : string) : string :=
  match l with
  | [] => EmptyString
  | x :: rest =>
      match rest with
      | [] => x
      | _ :: _ => x +:+ sep +:+ Join rest sep
      end
  end.

(** [sort.Strings]: ascending in the byte-wise order of Go's [<] on
    strings. *)
Definition sortStrings (l : list string) : list string :=
  merge_sort String.le l.

(** The loop of [Option.String] over [revMap], whose entries come in the
    order [entries]: the names of the keys that are subsets of [opts]. *)
Fixpoint revNames (entries : list (Option * string)) (opts : Option)
  : list string :=
  match entries with
  | [] => []
  | (k, v) :: rest =>
      if N.eqb (N.land k opts) k then v :: revNames rest opts
      else revNames rest opts
  end.

(** [Option.String]. The table [revMap] is built from the lexer's keyword
    table, outside the given sources; its entries, in the order the [range]
    yields them, are the parameter [entries]. A group is subtracted only
    when all its bits are set, so the subtraction does not wrap. *)
Definition Option_String (entries : list (Option * string)) (opts : Option)
  : string :=
  let l : list string := [] in
  let '(l, opts) :=
    if N.eqb (N.land opts oBad) oBad then (l ++ ["bad"], (opts - oBad)%N)
    else (l, opts) in
  let '(l, opts) :=
    if N.eqb (N.land opts oIp) oIp then (l ++ ["ip"], (opts - oIp)%N)
    else (l, opts) in
  let '(l, opts) :=
    if N.eqb (N.land opts oAny) oAny then (l ++ ["any"], (opts - oAny)%N)
    else (l, opts) in
  let l := l ++ revNames entries opts in
  Join (sortStrings l) ",".

(** [Expr.String], by cases on the node. *)
Fixpoint Expr_String (entries : list (Option * string)) (e : Expr) : string :=
  match e with
  | AndL nodes =>
      "( " +:+ Join (map (Expr_String entries) nodes) " " +:+ " )"
  | NotN node => "not " +:+ Expr_String entries node
  | OrN lft rgt =>
      "( " +:+ Expr_String entries lft +:+ " or "
        +:+ Expr_String entries rgt +:+ " )"
  | AllN => "all"
  | TlsN on => if on then "tls on" else "tls off"
  | DNSblN domain => "dnsbl " +:+ domain
  | MatchN what arg _ _ => what +:+ " " +:+ arg
  | matchSource arg _ _ _ => "source " +:+ arg
  | DblNode domain src =>
      "dbl " +:+ Option_String entries src +:+ " " +:+ domain
  | OptionN what opts _ => what +:+ " " +:+ Option_String entries opts
  end.

(** The double quote, as a string. *)
Definition dquote : string := String (ascii_of_nat 34) EmptyString.

(** The loop of [RClause.String] over the sorted keys. *)
Fixpoint withText (withs_ : gmap string string) (keys : list string)
    (acc : string) : string :=
  match keys with
  | [] => acc
  | k :: rest =>
      let v := default EmptyString (withs_ !! k) in
      if negb (String.eqb v EmptyString) then
        withText withs_ rest (acc +:+ " " +:+ k +:+ " " +:+ dquote +:+ v +:+ dquote)
      else withText withs_ rest (acc +:+ " " +:+ k)
  end.

(** [RClause.String]; [ord] is the order in which the [range] over the
    with-map yields its keys. *)
Definition RClause_String (entries : list (Option * string))
    (ord : gset string -> list string) (rc : RClause) : string :=
  let keys := sortStrings (ord (dom (withs rc))) in
  let with_ := withText (withs rc) keys EmptyString in
  let with_ :=
    if negb (String.eqb with_ EmptyString) then " with" +:+ with_ else with_ in
  Expr_String entries (expr rc) +:+ with_.

(** [Rule.String]. *)
Definition Rule_String (entries : list (Option * string))
    (ord : gset string -> list string) (r : Rule) : string :=
  let cstrs := map (RClause_String entries ord) (clauses r) in
  if negb (Phase_eqb (deferto r) pAny) then
    Phase_String (deferto r) +:+ " " +:+ Action_String (result r) +:+ " "
      +:+ Join cstrs "; "
  else Action_String (result r) +:+ " " +:+ Join cstrs "; ".

(* ===================================================================== *)
(** ** Sample environments *)
(* ===================================================================== *)

Module Sample.

(** A pattern source in which file references resolve to nothing and a
    literal resolves to itself; a blocklist that lists one name. *)
Definition collab : Collab :=
  {| getMatchList := fun arg =>
       if String.prefix "/" arg then [] else [arg];
     getDnsblRes := fun name =>
       String.eqb name "spam.example.dbl.test";
     getAddrOpts := fun _ _ => oDomainValid;
     matchHost := String.eqb;
     matchAddress := String.eqb;
     matchIp := String.eqb;
     heloGetter := fun _ => oEhlo;
     dnsGetter := fun _ => oNodns;
     rangeOrder := elements |}.

Definition context : Context :=
  {| trans := {| rip := "2001:db8::1"; tlson := false;
                 rdns := {| verified := ["mail.example."];
                            nofwd := ["spam.example."];
                            inconsist := [] |} |};
     heloname := "mail.example";
     from := "joe@example.net";
     rcptto := EmptyString;
     withprops := ∅;
     rulemiss := true;
     dnsblhit := [] |}.

Definition world : World := {| ctx := context; calls := [] |}.

Definition rule (e : Expr) : Rule :=
  {| clauses := [ {| expr := e; withs := {[ "message" := "Hi" ]} |} ];
     result := aAccept; requires := pMfrom; deferto := pAny |}.

(** A compact-form rule of three clauses: the first does not match, the
    second consults a missing file under a [not], the third is [all]. *)
Definition helloClause : RClause :=
  {| expr := newHeloNode collab "other.example"; withs := ∅ |}.

Definition fileClause : RClause :=
  {| expr := NotN (newFromNode collab "/missing/file");
     withs := {[ "message" := "Hi" ]} |}.

Definition allClause : RClause :=
  {| expr := AllN; withs := {[ "message" := "Bye" ]} |}.

Definition trapRule : Rule :=
  {| clauses := [helloClause; fileClause; allClause];
     result := aNoresult; requires := pMfrom; deferto := pAny |}.

(** The state after the second clause of [trapRule] was evaluated. *)
Definition trapWorld : World :=
  {| ctx := set_rulemiss true context;
     calls := [EvMatchList "other.example"; EvMatchList "/missing/file"] |}.

Definition twoMX : list MX :=
  [ {| Host := "gone.example."; Pref := 10 |};
    {| Host := "mx.example."; Pref := 20 |} ].

Definition nullRouteMX : list MX :=
  [ {| Host := "mx.example."; Pref := 5 |};
    {| Host := "LocalHost."; Pref := 10 |};
    {| Host := "gone.example."; Pref := 20 |} ].

(** A resolver: [nomx.example.] answers the MX query with no records and
    no error; [two.example.] has two MX targets, the first unresolvable
    and the second with a public address; [null.example.] has a good
    target and a null route. *)
Definition resolver : Resolver :=
  {| LookupMX := fun name =>
       if String.eqb name "nomx.example." then ([], None)
       else if String.eqb name "two.example." then (twoMX, None)
       else if String.eqb name "null.example." then (nullRouteMX, None)
       else ([], Some (DNSErr {| Err := "no such host"; Name := name;
                                 Server := EmptyString; IsTimeout := false;
                                 IsTemporary := false |}));
     LookupIP := fun name =>
       if String.eqb name "mx.example." then ([[192; 0; 2; 1]%N], None)
       else ([], Some (DNSErr {| Err := "no such host"; Name := name;
                                 Server := EmptyString; IsTimeout := false;
                                 IsTemporary := false |}));
     IsGlobalUnicast := fun _ => true;
     Contains := fun _ _ => false;
     IP_String := fun _ => "192.0.2.1" |}.

(** Some entries of the reverse option table, in two orders. *)
Definition revEntries : list (Option * string) :=
  [ (oHost, "host"); (oFrom, "from"); (oHelo, "helo"); (oEhlo, "ehlo");
    (oNodns, "nodns"); (oQuoted, "quoted"); (oRoute, "route") ].

Definition noteClause : RClause :=
  {| expr := AndL [DblNode "dbl.test" (N.lor oHost oFrom);
                   NotN (TlsN true)];
     withs := {[ "note" := "listed"; "message" := "Hi";
                 "make-yakker" := EmptyString ]} |}.

End Sample.

(* ===================================================================== *)
(** ** Checks of the primitives on concrete inputs *)
(* ===================================================================== *)

Example Split_ipv4 : GoStr.Split "." "192.168.10.3" = ["192"; "168"; "10"; "3"].
Proof. reflexivity. Qed.

Example Split_empty : GoStr.Split "." EmptyString = [EmptyString].
Proof. reflexivity. Qed.

Example Split_ipv6 : length (GoStr.Split "." "2001:db8::1") = 1.
Proof. reflexivity. Qed.

Example chopDot_name : chopDot "a.b." = Some "a.b".
Proof. reflexivity. Qed.

Example chopDot_empty : chopDot EmptyString = None.
Proof. reflexivity. Qed.

Example IndexByte_at : GoStr.IndexByte "joe@example.net" "@" = 3%Z.
Proof. reflexivity. Qed.

Example IndexByte_none : GoStr.IndexByte "joe" "@" = (-1)%Z.
Proof. reflexivity. Qed.

Example sliceFrom_domain : GoStr.sliceFrom "joe@example.net" 4 = Some "example.net".
Proof. reflexivity. Qed.

Example ToLower_localhost : GoStr.ToLower "LocalHost." = "localhost.".
Proof. reflexivity. Qed.

Example oFrom_value : oFrom = 33554432%N.
Proof. reflexivity. Qed.

Example oAny_bits : N.land oAny oHost = oHost /\ N.land oAny oHelo = 0%N.
Proof. split; reflexivity. Qed.

(** The evaluator on the sample context. *)
Example Eval_dnsbl_ipv4 :
  Eval Sample.collab (DNSblN "dnsbl.test")
       (withCtx (fun c =>
          {| trans := {| rip := "192.0.2.7"; tlson := false;
                         rdns := rdns (trans c) |};
             heloname := heloname c; from := from c; rcptto := rcptto c;
             withprops := withprops c; rulemiss := false;
             dnsblhit := dnsblhit c |}) Sample.world)
  = Ret false
        {| ctx := {| trans := {| rip := "192.0.2.7"; tlson := false;
                                 rdns := rdns (trans Sample.context) |};
                     heloname := "mail.example"; from := "joe@example.net";
                     rcptto := EmptyString; withprops := ∅;
                     rulemiss := false; dnsblhit := [] |};
           calls := [EvDnsblRes "7.2.0.192.dnsbl.test"] |}.
Proof. reflexivity. Qed.

Example Eval_dbl_any :
  match Eval Sample.collab (DblNode "dbl.test" oAny) Sample.world with
  | Ret b w => Some (b, dnsblhit (ctx w), calls w)
  | Panic => None
  end
  = Some (true, ["dbl.test"],
          [EvDnsblRes "spam.example.dbl.test";
           EvDnsblRes "mail.example.dbl.test";
           EvDnsblRes "example.net.dbl.test"]).
Proof. vm_compute. reflexivity. Qed.

Example Eval_dbl_empty_name :
  Eval Sample.collab (DblNode "dbl.test" oHost)
       (withCtx (fun c =>
          {| trans := {| rip := rip (trans c); tlson := false;
                         rdns := {| verified := ["mail.example."];
                                    nofwd := [EmptyString];
                                    inconsist := [] |} |};
             heloname := heloname c; from := from c; rcptto := rcptto c;
             withprops := withprops c; rulemiss := rulemiss c;
             dnsblhit := dnsblhit c |}) Sample.world)
  = Panic.
Proof. reflexivity. Qed.

Example Eval_source_helo :
  Eval Sample.collab (newSourceNode Sample.collab "mail.example") Sample.world
  = Ret true {| ctx := Sample.context;
                calls := [EvMatchList "mail.example";
                          EvMatchList "mail.example"] |}.
Proof. reflexivity. Qed.

Example check_trapRule :
  check Sample.collab Sample.trapRule Sample.world
  = Ret false Sample.trapWorld.
Proof. reflexivity. Qed.

Example check_all_or_file :
  match check Sample.collab
          (Sample.rule (OrN AllN (newFromNode Sample.collab "/missing/file")))
          Sample.world with
  | Ret b w => Some (b, rulemiss (ctx w), withprops (ctx w) !! "message", calls w)
  | Panic => None
  end
  = Some (true, false, Some "Hi", []).
Proof. vm_compute. reflexivity. Qed.

(** The classifier on the sample resolver. *)
Example ValidDomain_two :
  ValidDomain Sample.resolver "two.example" []
  = ((dnsGood, None),
     [CallLookupMX "two.example."; CallLookupIP "gone.example.";
      CallLookupIP "mx.example."]).
Proof. reflexivity. Qed.

Example ValidDomain_null_route :
  ValidDomain Sample.resolver "null.example" []
  = ((dnsBad, Some (errorString "rejecting bogus MX 10 LocalHost.")),
     [CallLookupMX "null.example."; CallLookupIP "mx.example."]).
Proof. reflexivity. Qed.

Example ValidDomain_no_such_domain :
  fst (fst (ValidDomain Sample.resolver "other.example" [])) = dnsBad.
Proof. reflexivity. Qed.

(* ===================================================================== *)
(** ** The evaluation monad *)
(* ===================================================================== *)

Lemma bind_Ret {A B} (m : M A) (k : A -> M B) w a w' :
  m w = Ret a w' -> bind m k w = k a w'.
Proof. unfold bind. intros ->. reflexivity. Qed.

(** Inversion of a [bind] that returned. *)
Lemma bind_inv {A B} (m : M A) (k : A -> M B) w b w'' :
  bind m k w = Ret b w'' ->
  exists a w', m w = Ret a w' /\ k a w' = Ret b w''.
Proof.
  unfold bind. destruct (m w) as [a w'|] eqn:Hm; [|discriminate].
  intros Hk. exists a, w'. split; [reflexivity | exact Hk].
Qed.

(** [Eval] on [AndL] is the named loop. *)
Lemma Eval_AndL E nodes : Eval E (AndL nodes) = AndL_loop E nodes.
Proof.
  simpl. induction nodes as [|n ns IH]; [reflexivity|].
  simpl. rewrite IH. reflexivity.
Qed.

(** Induction on expressions, with the hypothesis for every operand of an
    [AndL]. *)
Lemma Expr_nested_ind (P : Expr -> Prop) :
  (forall nodes, Forall P nodes -> P (AndL nodes)) ->
  (forall node, P node -> P (NotN node)) ->
  (forall l r, P l -> P r -> P (OrN l r)) ->
  P AllN ->
  (forall on, P (TlsN on)) ->
  (forall domain, P (DNSblN domain)) ->
  (forall what arg matcher getter, P (MatchN what arg matcher getter)) ->
  (forall arg h e f, P h -> P e -> P f -> P (matchSource arg h e f)) ->
  (forall domain src, P (DblNode domain src)) ->
  (forall what opts getter, P (OptionN what opts getter)) ->
  forall e, P e.
Proof.
  intros HAnd HNot HOr HAll HTls HDnsbl HMatch HSrc HDbl HOpt.
  fix IH 1. intros [nodes|node|l r| |on|domain|what arg matcher getter
                    |arg h e f|domain src|what opts getter].
  - apply HAnd. induction nodes as [|n ns IHns]; constructor.
    + apply IH.
    + exact IHns.
  - apply HNot, IH.
  - apply HOr; apply IH.
  - exact HAll.
  - apply HTls.
  - apply HDnsbl.
  - apply HMatch.
  - apply HSrc; apply IH.
  - apply HDbl.
  - apply HOpt.
Qed.

(* ===================================================================== *)
(** ** Terminal matchers *)
(* ===================================================================== *)

Section Matchers.

Variable E : Collab.

(** C10. When the remote IP string is empty or does not split on '.' into
    exactly four fields (an IPv6 address, for one), [DNSblN.Eval] returns
    false and leaves the whole state as it was: no DNS probe is made, no
    blocklist hit is recorded and the data-unavailable signal is not
    raised. *)
Theorem DNSblN_Eval_not_ipv4 (domain : string) (w : World) :
  rip (trans (ctx w)) = EmptyString
  \/ length (GoStr.Split "." (rip (trans (ctx w)))) <> 4 ->
  Eval E (DNSblN domain) w = Ret false w.
Proof.
  intros H. cbn [Eval]. unfold DNSblN_Eval, bind, getCtx.
  destruct (String.eqb_spec (rip (trans (ctx w))) EmptyString) as [Heq|Hne].
  - reflexivity.
  - destruct H as [H|H]; [contradiction|].
    destruct (Nat.eqb_spec (length (GoStr.Split "." (rip (trans (ctx w))))) 4)
      as [Hlen|Hlen]; [contradiction|].
    reflexivity.
Qed.

(** The nested loops of [MatchN.Eval] find a match exactly when some
    literal matches some pattern. *)
Lemma match_loops_spec (matcher : string -> string -> bool)
    (lits plist : list string) :
  existsb (fun p => existsb (fun e => matcher e p) lits) plist = true
  <-> exists e p, e ∈ lits /\ p ∈ plist /\ matcher e p = true.
Proof.
  rewrite existsb_exists. split.
  - intros (p & Hp & Hex). apply existsb_exists in Hex as (e & He & Hm).
    exists e, p. rewrite !list_elem_of_In. auto.
  - intros (e & p & He & Hp & Hm). rewrite list_elem_of_In in He, Hp.
    exists p. split; [exact Hp|]. apply existsb_exists. eauto.
Qed.

(** C6. A generic pattern matcher resolves its argument into a pattern
    list. If the list is empty, [Eval] raises the data-unavailable signal
    and returns false. If it is non-empty, [Eval] leaves the context as it
    was (the signal is not raised) and returns true exactly when some
    literal of the getter matches some pattern of the list under the
    node's matching function. The statement is for every [MatchN], so for
    the helo, host, from, to and ip nodes. *)
Theorem MatchN_Eval_spec (what arg : string)
    (matcher : string -> string -> bool)
    (getter : Context -> list string) (w : World) :
  (getMatchList E arg = [] ->
     Eval E (MatchN what arg matcher getter) w
     = Ret false {| ctx := set_rulemiss true (ctx w);
                    calls := calls w ++ [EvMatchList arg] |})
  /\ (getMatchList E arg <> [] ->
      exists b : bool,
        Eval E (MatchN what arg matcher getter) w
        = Ret b {| ctx := ctx w; calls := calls w ++ [EvMatchList arg] |}
        /\ (b = true <->
            exists e p, e ∈ getter (ctx w) /\ p ∈ getMatchList E arg
                        /\ matcher e p = true)).
Proof.
  cbn [Eval]. unfold MatchN_Eval, callMatchList, bind, emit, ret, getCtx,
    modifyCtx. cbn [ctx calls].
  split.
  - intros ->. reflexivity.
  - intros Hne. destruct (getMatchList E arg) as [|p ps] eqn:Hl;
      [contradiction|].
    cbn [length Nat.eqb].
    eexists. split; [reflexivity|]. apply match_loops_spec.
Qed.

End Matchers.

(** Witness of C6 on the sample pattern source: a file reference resolves to
    nothing, a literal to itself. *)
Lemma MatchN_Eval_spec_witness :
  Eval Sample.collab (newFromNode Sample.collab "/missing/file") Sample.world
  = Ret false {| ctx := set_rulemiss true Sample.context;
                 calls := [EvMatchList "/missing/file"] |}
  /\ exists b : bool,
      Eval Sample.collab (newFromNode Sample.collab "joe@example.net") Sample.world
      = Ret b {| ctx := Sample.context;
                 calls := [EvMatchList "joe@example.net"] |}
      /\ (b = true <->
          exists e p, e ∈ [from Sample.context]
                      /\ p ∈ getMatchList Sample.collab "joe@example.net"
                      /\ String.eqb e p = true).
Proof.
  split.
  - apply (proj1 (MatchN_Eval_spec Sample.collab "from" "/missing/file"
                    String.eqb (fun c => [from c]) Sample.world)).
    reflexivity.
  - apply (proj2 (MatchN_Eval_spec Sample.collab "from" "joe@example.net"
                    String.eqb (fun c => [from c]) Sample.world)).
    simpl. discriminate.
Defined.

(** Witness of C10 on an IPv6 remote address. *)
Lemma DNSblN_Eval_not_ipv4_witness :
  Eval Sample.collab (DNSblN "dnsbl.test") Sample.world = Ret false Sample.world.
Proof.
  apply DNSblN_Eval_not_ipv4. right. vm_compute. lia.
Defined.

(* ===================================================================== *)
(** ** Combinators *)
(* ===================================================================== *)

Section Combinators.

Variable E : Collab.

(** [OrN.Eval] when the left operand is false: the right operand decides. *)
Lemma OrN_Eval_left_false (l r : Expr) (w w' : World) :
  Eval E l w = Ret false w' -> Eval E (OrN l r) w = Eval E r w'.
Proof. intros H. cbn [Eval]. rewrite (bind_Ret _ _ _ _ _ H). reflexivity. Qed.

(** C7. [OrN.Eval] evaluates its left operand first; when that returns
    true, the result is true in exactly the state the left operand left,
    whatever the right operand is: the right operand is not evaluated and
    none of its effects occurs. Consequently [Rule.check] on a rule whose
    clause is [all or from FILE] returns true for every context, with the
    data-unavailable signal clear, the clause's with-options merged and no
    collaborator call made, whatever FILE resolves to. *)
Theorem OrN_Eval_short_circuit :
  (forall (l r : Expr) (w w' : World),
      Eval E l w = Ret true w' -> Eval E (OrN l r) w = Ret true w')
  /\ (forall (file : string) (ws : gmap string string)
             (res : Action) (req def : Phase) (w : World),
        check E {| clauses := [ {| expr := OrN AllN (newFromNode E file);
                                   withs := ws |} ];
                   result := res; requires := req; deferto := def |} w
        = Ret true {| ctx := mergeWiths ws (set_rulemiss false (ctx w));
                      calls := calls w |}
        /\ rulemiss (mergeWiths ws (set_rulemiss false (ctx w))) = false).
Proof.
  split.
  - intros l r w w' H. cbn [Eval]. rewrite (bind_Ret _ _ _ _ _ H).
    reflexivity.
  - intros file ws res req def w. split; reflexivity.
Qed.

(** C8. Evaluating [source HPAT] gives the same result and the same state
    (signal, blocklist hits, collaborator calls in the same order) as
    evaluating [(host HPAT or helo HPAT or FROM')], where FROM' matches
    the MAIL FROM address against '@' prepended to each resolved pattern;
    this holds for either grouping of the two [or]s. *)
Theorem source_Eval_is_or (arg : string) (w : World) :
  Eval E (newSourceNode E arg) w = Eval E (sourceAsOr E arg) w
  /\ Eval E (newSourceNode E arg) w = Eval E (sourceAsOrLeft E arg) w.
Proof.
  unfold newSourceNode, sourceAsOr, sourceAsOrLeft, fromAtNode,
    newHostNode, newHeloNode.
  cbn [Eval]. unfold matchFromHost, bind.
  destruct (MatchN_Eval E arg (matchHost E)
              (fun c => verified (rdns (trans c))) w) as [[|] w1|];
    cbn [ret]; try (split; reflexivity).
  destruct (MatchN_Eval E arg (matchHost E) (fun c => [heloname c]) w1)
    as [[|] w2|]; split; reflexivity.
Qed.

End Combinators.

(** Witness of C7: [all] is true, so [all or from /missing/file] is true in
    the unchanged state. *)
Lemma OrN_Eval_short_circuit_witness :
  Eval Sample.collab (OrN AllN (newFromNode Sample.collab "/missing/file"))
       Sample.world
  = Ret true Sample.world.
Proof.
  apply (proj1 (OrN_Eval_short_circuit Sample.collab)). reflexivity.
Defined.

(* ===================================================================== *)
(** ** Rule checking *)
(* ===================================================================== *)

Lemma keeps_ret {A} (a : A) : keepsWithprops (ret a).
Proof. intros w a' w' H. inversion H. reflexivity. Qed.

Lemma keeps_bind {A B} (m : M A) (k : A -> M B) :
  keepsWithprops m -> (forall a, keepsWithprops (k a)) ->
  keepsWithprops (bind m k).
Proof.
  intros Hm Hk w b w'' H. apply bind_inv in H as (a & w' & H1 & H2).
  rewrite (Hk a _ _ _ H2). exact (Hm _ _ _ H1).
Qed.

Lemma keeps_getCtx : keepsWithprops getCtx.
Proof. intros w a w' H. inversion H. reflexivity. Qed.

Lemma keeps_emit e : keepsWithprops (emit e).
Proof. intros w a w' H. inversion H. reflexivity. Qed.

Lemma keeps_modifyCtx f :
  (forall c, withprops (f c) = withprops c) -> keepsWithprops (modifyCtx f).
Proof. intros Hf w a w' H. inversion H. cbn. apply Hf. Qed.

Lemma keeps_orPanic {A} (o : option A) : keepsWithprops (orPanic o).
Proof. destruct o; intros w a' w' H; inversion H. reflexivity. Qed.

Lemma keeps_if {A} (b : bool) (m1 m2 : M A) :
  keepsWithprops m1 -> keepsWithprops m2 ->
  keepsWithprops (if b then m1 else m2).
Proof. destruct b; auto. Qed.

Create HintDb keeps.
#[local] Hint Resolve keeps_ret keeps_getCtx keeps_emit keeps_orPanic : keeps.

Section RuleCheck.

Variable E : Collab.

Lemma keeps_callDnsblRes name : keepsWithprops (callDnsblRes E name).
Proof. apply keeps_bind; auto with keeps. Qed.

Lemma keeps_DblNode_probe domain keys :
  forall r, keepsWithprops (DblNode_probe E domain keys r).
Proof.
  induction keys as [|s rest IH]; intros r; cbn [DblNode_probe].
  - apply keeps_ret.
  - apply keeps_bind; [apply keeps_callDnsblRes|].
    intros res. apply keeps_if; [|apply IH].
    apply keeps_bind; [|intros _; apply IH].
    apply keeps_modifyCtx. reflexivity.
Qed.

(** Evaluating an expression never touches the with-properties: only
    [Rule.check] merges them. *)
Lemma Eval_keepsWithprops (e : Expr) : keepsWithprops (Eval E e).
Proof.
  induction e as [nodes IH|node IH|l r IHl IHr| |on|domain
                  |what arg matcher getter|arg h e f IHh IHe IHf
                  |domain src|what opts getter] using Expr_nested_ind.
  - rewrite Eval_AndL. induction IH as [|n ns Hn _ IHns];
      cbn [AndL_loop]; [apply keeps_ret|].
    apply keeps_bind; [exact Hn|]. intros a.
    apply keeps_if; [apply keeps_ret | exact IHns].
  - cbn [Eval]. apply keeps_bind; [exact IH|]. intros; apply keeps_ret.
  - cbn [Eval]. apply keeps_bind; [exact IHl|]. intros a.
    apply keeps_if; [apply keeps_ret | exact IHr].
  - apply keeps_ret.
  - cbn [Eval]. apply keeps_bind; [apply keeps_getCtx|].
    intros; apply keeps_ret.
  - cbn [Eval]. unfold DNSblN_Eval, index.
    apply keeps_bind; [apply keeps_getCtx|]. intros c.
    repeat (apply keeps_if; [apply keeps_ret|]).
    repeat (apply keeps_bind; [apply keeps_orPanic|]; intros ?).
    apply keeps_bind; [apply keeps_callDnsblRes|]. intros res.
    apply keeps_if; [|apply keeps_ret].
    apply keeps_bind; [|intros; apply keeps_ret].
    apply keeps_modifyCtx. reflexivity.
  - cbn [Eval]. unfold MatchN_Eval, callMatchList.
    apply keeps_bind; [apply keeps_bind; auto with keeps|]. intros plist.
    apply keeps_if.
    + apply keeps_bind; [|intros; apply keeps_ret].
      apply keeps_modifyCtx. reflexivity.
    + apply keeps_bind; [apply keeps_getCtx|]. intros; apply keeps_ret.
  - cbn [Eval]. apply keeps_bind; [exact IHh|]. intros a.
    apply keeps_bind.
    + apply keeps_if; [apply keeps_ret | exact IHe].
    + intros ab. apply keeps_if; [apply keeps_ret | exact IHf].
  - cbn [Eval]. unfold DblNode_Eval.
    apply keeps_bind; [apply keeps_getCtx|]. intros c.
    apply keeps_bind; [apply keeps_orPanic|]. intros ck.
    apply keeps_if; [apply keeps_ret | apply keeps_DblNode_probe].
  - cbn [Eval]. apply keeps_bind; [apply keeps_getCtx|].
    intros; apply keeps_ret.
Qed.

(** Clauses passed over leave the with-properties alone. *)
Lemma passOver_keepsWithprops (cls : list RClause) :
  forall w w', passOver E cls w = Some w' ->
               withprops (ctx w') = withprops (ctx w).
Proof.
  induction cls as [|cl rest IH]; intros w w' H; cbn [passOver] in H.
  - inversion H. reflexivity.
  - destruct (Eval E (expr cl) w) as [[|] w1|] eqn:Hev; try discriminate.
    destruct (rulemiss (ctx w1)); [discriminate|].
    rewrite (IH _ _ H). exact (Eval_keepsWithprops _ _ _ _ Hev).
Qed.

(** The loop of [Rule.check] skips the clauses that are passed over. *)
Lemma check_loop_passOver (pre rest : list RClause) :
  forall w w1, passOver E pre w = Some w1 ->
               check_loop E (pre ++ rest) w = check_loop E rest w1.
Proof.
  induction pre as [|cl pre IH]; intros w w1 H; cbn [passOver] in H.
  - inversion H. reflexivity.
  - destruct (Eval E (expr cl) w) as [[|] w2|] eqn:Hev; try discriminate.
    destruct (rulemiss (ctx w2)) eqn:Hmiss; [discriminate|].
    cbn [app check_loop]. rewrite (bind_Ret _ _ _ _ _ Hev).
    unfold bind at 1. cbn [getCtx]. rewrite Hmiss. cbn [negb].
    apply IH. exact H.
Qed.

(** C1. [Rule.check] first clears the data-unavailable signal (its outcome
    does not depend on the signal's value on entry), then evaluates the
    clauses in order. If the clauses before some clause are passed over
    and the signal is set once that clause's expression has been
    evaluated, [check] returns no-match in exactly the state that
    evaluation left, whatever boolean the expression produced and
    whatever clauses follow: no with-property is merged and no later
    clause is evaluated. *)
Theorem check_rulemiss_abandons_rule (r : Rule) (w : World) :
  (forall b0 : bool, check E r (withCtx (set_rulemiss b0) w) = check E r w)
  /\ (forall (pre post : list RClause) (cl : RClause) (b : bool)
             (w1 w2 : World),
        clauses r = pre ++ cl :: post ->
        passOver E pre (withCtx (set_rulemiss false) w) = Some w1 ->
        Eval E (expr cl) w1 = Ret b w2 ->
        rulemiss (ctx w2) = true ->
        check E r w = Ret false w2
        /\ withprops (ctx w2) = withprops (ctx w)).
Proof.
  split.
  - intros b0. reflexivity.
  - intros pre post cl b w1 w2 Hcl Hpre Hev Hmiss. split.
    + unfold withCtx in Hpre.
      unfold check. unfold bind at 1. cbn [modifyCtx].
      rewrite Hcl.
      rewrite (check_loop_passOver pre (cl :: post) _ _ Hpre).
      cbn [check_loop]. rewrite (bind_Ret _ _ _ _ _ Hev).
      unfold bind, getCtx. rewrite Hmiss. reflexivity.
    + rewrite (Eval_keepsWithprops _ _ _ _ Hev).
      rewrite (passOver_keepsWithprops _ _ _ Hpre). reflexivity.
Qed.

End RuleCheck.

(* ===================================================================== *)
(** ** Slices in [DblNode.Eval] *)
(* ===================================================================== *)

Lemma len_String ch s : GoStr.len (String ch s) = (GoStr.len s + 1)%Z.
Proof. unfold GoStr.len. cbn [String.length]. lia. Qed.

Lemma len_nonneg s : (0 <= GoStr.len s)%Z.
Proof. unfold GoStr.len. lia. Qed.

(** [s[:len(s)-1]] panics exactly on the empty string. *)
Lemma chopDot_None (s : string) : chopDot s = None <-> s = EmptyString.
Proof.
  unfold chopDot, GoStr.sliceTo. split.
  - destruct s as [|ch s]; [reflexivity|]. rewrite len_String.
    pose proof (len_nonneg s).
    destruct (Z.ltb_spec (GoStr.len s + 1 - 1) 0); [lia|].
    destruct (Z.ltb_spec (GoStr.len s + 1) (GoStr.len s + 1 - 1)); [lia|].
    discriminate.
  - intros ->. reflexivity.
Qed.

(** All but the last byte of a non-empty string, then the last byte. *)
Lemma substring_init_last (ch : ascii) (s : string) :
  exists last, String ch s
               = String.substring 0 (String.length s) (String ch s)
                   +:+ String last EmptyString.
Proof.
  revert ch. induction s as [|ch' s IH]; intros ch.
  - exists ch. reflexivity.
  - destruct (IH ch') as [last Hlast]. exists last.
    change (String.substring 0 (String.length (String ch' s))
              (String ch (String ch' s)))
      with (String ch (String.substring 0 (String.length s) (String ch' s))).
    exact (f_equal (String ch) Hlast).
Qed.

(** What [s[:len(s)-1]] yields is [s] without its final byte. *)
Lemma chopDot_Some (s t : string) :
  chopDot s = Some t -> exists last, s = t +:+ String last EmptyString.
Proof.
  destruct s as [|ch s].
  - discriminate.
  - unfold chopDot, GoStr.sliceTo. rewrite len_String.
    pose proof (len_nonneg s).
    destruct (Z.ltb_spec (GoStr.len s + 1 - 1) 0); [lia|].
    destruct (Z.ltb_spec (GoStr.len s + 1) (GoStr.len s + 1 - 1)); [lia|].
    cbn [orb]. intros Ht. inversion Ht as [Ht'].
    replace (Z.to_nat (GoStr.len s + 1 - 1)) with (String.length s)
      by (unfold GoStr.len; lia).
    apply substring_init_last.
Qed.

(** The loop over a name list panics exactly when the list holds the empty
    string. *)
Lemma addChopped_None (names : list string) :
  forall ck, addChopped names ck = None <-> EmptyString ∈ names.
Proof.
  induction names as [|s rest IH]; intros ck; cbn [addChopped].
  - split; [discriminate|]. intros H. inversion H.
  - destruct (chopDot s) as [t|] eqn:Hs.
    + rewrite IH. rewrite elem_of_cons. split; [auto|].
      intros [Heq|Hin]; [|exact Hin]. subst s. discriminate.
    + apply chopDot_None in Hs. subst s. split; [|reflexivity].
      intros _. apply list_elem_of_here.
Qed.

(** When it does not panic it adds the chopped form of every name, and
    keeps what was there. *)
Lemma addChopped_Some (names : list string) :
  forall ck ck', addChopped names ck = Some ck' ->
    ck ⊆ ck'
    /\ forall s, s ∈ names -> exists t, chopDot s = Some t /\ t ∈ ck'.
Proof.
  induction names as [|s rest IH]; intros ck ck' H; cbn [addChopped] in H.
  - inversion H. subst. split; [reflexivity|]. intros s Hs. inversion Hs.
  - destruct (chopDot s) as [t|] eqn:Hs; [|discriminate].
    destruct (IH _ _ H) as [Hall0 Hall].
    split; [etrans; [apply union_subseteq_r | exact Hall0]|].
    intros s' Hin. apply elem_of_cons in Hin as [->|Hin].
    + exists t. split; [exact Hs|].
      apply Hall0. apply elem_of_union_l, elem_of_singleton. reflexivity.
    + apply Hall, Hin.
Qed.

(** [strings.IndexByte] is -1 or an index into the string. *)
Lemma IndexByte_range (s : string) (c : ascii) :
  (-1 <= GoStr.IndexByte s c < GoStr.len s)%Z.
Proof.
  induction s as [|ch s IH]; cbn [GoStr.IndexByte].
  - unfold GoStr.len. cbn. lia.
  - rewrite len_String. destruct (Ascii.eqb ch c).
    + pose proof (len_nonneg s). lia.
    + destruct (Z.ltb_spec (GoStr.IndexByte s c) 0); lia.
Qed.

(** So the slice [c.from[idx+1:]] never panics. *)
Lemma sliceFrom_after_IndexByte (s : string) (c : ascii) :
  exists t, GoStr.sliceFrom s (GoStr.IndexByte s c + 1) = Some t.
Proof.
  unfold GoStr.sliceFrom. pose proof (IndexByte_range s c).
  destruct (Z.ltb_spec (GoStr.IndexByte s c + 1) 0); [lia|].
  destruct (Z.ltb_spec (GoStr.len s) (GoStr.IndexByte s c + 1)); [lia|].
  eauto.
Qed.

(** The probe loop returns: it has no slice expression. *)
Lemma DblNode_probe_returns (E : Collab) (domain : string) (keys : list string) :
  forall r w, exists b w', DblNode_probe E domain keys r w = Ret b w'.
Proof.
  induction keys as [|s rest IH]; intros r w; cbn [DblNode_probe].
  - unfold ret. eauto.
  - unfold callDnsblRes, bind, emit, ret, modifyCtx.
    destruct (getDnsblRes E (s +:+ "." +:+ domain)); apply IH.
Qed.

Lemma addChopped_app (l1 l2 : list string) :
  forall ck, addChopped (l1 ++ l2) ck
             = match addChopped l1 ck with
               | Some ck1 => addChopped l2 ck1
               | None => None
               end.
Proof.
  induction l1 as [|s l1 IH]; intros ck; cbn [app addChopped];
    [reflexivity|].
  destruct (chopDot s); [apply IH | reflexivity].
Qed.

Section DblSlices.

Variable E : Collab.

(** With the host source selected, the candidate map exists exactly when
    the walk over the three name lists does; it then holds what the walk
    collected. *)
Lemma DblNode_check_host (src : Option) (c : Context) :
  N.land src oHost = oHost ->
  exists ck0,
    match addChopped (rdnsNames c) ck0 with
    | None => DblNode_check E src c = None
    | Some ck1 => exists ck, DblNode_check E src c = Some ck /\ ck1 ⊆ ck
    end.
Proof.
  intros Hhost. unfold DblNode_check. rewrite Hhost, N.eqb_refl.
  set (ck0 := if negb (N.eqb (N.land src (N.lor oEhlo oHelo)) 0)
                 && negb (String.eqb (heloname c) EmptyString)
              then {[ heloname c ]} ∪ (∅ : gset string) else ∅).
  exists ck0. unfold rdnsNames. rewrite addChopped_app.
  destruct (addChopped (verified (rdns (trans c))) ck0) as [ck1|];
    [|exact eq_refl].
  rewrite addChopped_app.
  destruct (addChopped (nofwd (rdns (trans c))) ck1) as [ck2|];
    [|exact eq_refl].
  destruct (addChopped (inconsist (rdns (trans c))) ck2) as [ck3|];
    [|exact eq_refl].
  destruct (N.eqb (N.land src oFrom) oFrom
            && negb (String.eqb (from c) EmptyString));
    [|exists ck3; split; reflexivity].
  destruct (negb (N.eqb (N.land (getAddrOpts E (from c) c)
              (N.lor (N.lor oDomainValid oDomainInvalid) oDomainTempfail)) 0));
    [|exists ck3; split; reflexivity].
  destruct (sliceFrom_after_IndexByte (from c) "@") as [t Ht].
  rewrite Ht. exists ({[ t ]} ∪ ck3). split; [reflexivity|].
  apply union_subseteq_r.
Qed.

(** [DblNode.Eval] panics exactly when building the candidate map does. *)
Lemma DblNode_Eval_Panic (domain : string) (src : Option) (w : World) :
  Eval E (DblNode domain src) w = Panic
  <-> DblNode_check E src (ctx w) = None.
Proof.
  cbn [Eval]. unfold DblNode_Eval, bind, getCtx.
  destruct (DblNode_check E src (ctx w)) as [ck|]; cbn [orPanic].
  - unfold ret. split; [|discriminate].
    destruct (Nat.eqb (size ck) 0); [discriminate|].
    destruct (DblNode_probe_returns E domain (rangeOrder E ck) false w)
      as (b & w' & ->). discriminate.
  - split; reflexivity.
Qed.

(** C9. With the host source selected: the slice [s[:len(s)-1]] is out of
    range exactly for the empty string, and [DblNode.Eval] panics exactly
    when one of the three reverse-DNS lists holds the empty string. When
    every listed name is non-empty, [DblNode.Eval] returns, and the
    candidate derived from each name is that name without its final byte
    and is in the candidate map. *)
Theorem DblNode_Eval_host_slices (domain : string) (src : Option) (w : World) :
  N.land src oHost = oHost ->
  (forall s, chopDot s = None <-> s = EmptyString)
  /\ (Eval E (DblNode domain src) w = Panic
      <-> EmptyString ∈ rdnsNames (ctx w))
  /\ (Forall (fun s => s <> EmptyString) (rdnsNames (ctx w)) ->
      (exists b w', Eval E (DblNode domain src) w = Ret b w')
      /\ exists ck, DblNode_check E src (ctx w) = Some ck
           /\ forall s, s ∈ rdnsNames (ctx w) ->
                exists t last, chopDot s = Some t
                               /\ s = t +:+ String last EmptyString
                               /\ t ∈ ck).
Proof.
  intros Hhost.
  destruct (DblNode_check_host src (ctx w) Hhost) as [ck0 Hck].
  split; [exact chopDot_None|]. split.
  - rewrite DblNode_Eval_Panic.
    destruct (addChopped (rdnsNames (ctx w)) ck0) as [ck1|] eqn:Hadd.
    + destruct Hck as (ck & -> & _). split; [discriminate|].
      intros Hin. apply (addChopped_None _ ck0) in Hin. congruence.
    + rewrite Hck. split; [|reflexivity]. intros _.
      apply (addChopped_None _ ck0). exact Hadd.
  - intros Hall.
    destruct (addChopped (rdnsNames (ctx w)) ck0) as [ck1|] eqn:Hadd.
    + destruct Hck as (ck & Hcheck & Hsub).
      destruct (addChopped_Some _ _ _ Hadd) as [_ Hnames]. split.
      * destruct (Eval E (DblNode domain src) w) as [b w'|] eqn:Hev;
          [eauto|].
        apply DblNode_Eval_Panic in Hev. congruence.
      * exists ck. split; [exact Hcheck|]. intros s Hs.
        destruct (Hnames s Hs) as (t & Ht & Hin).
        destruct (chopDot_Some _ _ Ht) as [last Hlast].
        exists t, last. split; [exact Ht|]. split; [exact Hlast|].
        apply Hsub, Hin.
    + apply (addChopped_None _ ck0) in Hadd.
      rewrite Forall_forall in Hall. destruct (Hall _ Hadd). reflexivity.
Qed.

End DblSlices.

(** Witness of C9: [dbl host] on the sample context, whose reverse-DNS
    names all end in the root dot. *)
Lemma DblNode_Eval_host_slices_witness :
  (exists b w', Eval Sample.collab (DblNode "dbl.test" oHost) Sample.world
                = Ret b w')
  /\ exists ck, DblNode_check Sample.collab oHost Sample.context = Some ck
       /\ forall s, s ∈ rdnsNames Sample.context ->
            exists t last, chopDot s = Some t
                           /\ s = t +:+ String last EmptyString
                           /\ t ∈ ck.
Proof.
  apply (DblNode_Eval_host_slices Sample.collab "dbl.test" oHost Sample.world).
  - reflexivity.
  - repeat constructor; discriminate.
Defined.

(* ===================================================================== *)
(** ** Iteration order in [DblNode.Eval] *)
(* ===================================================================== *)

Lemma existsb_Permutation {A} (f : A -> bool) (l1 l2 : list A) :
  l1 ≡ₚ l2 -> existsb f l1 = existsb f l2.
Proof.
  induction 1 as [|x l l' _ IH|x y l|l l' l'' _ IH1 _ IH2]; cbn [existsb].
  - reflexivity.
  - rewrite IH. reflexivity.
  - destruct (f x), (f y); reflexivity.
  - congruence.
Qed.

Lemma countHits_Permutation E domain (l1 l2 : list string) :
  l1 ≡ₚ l2 -> countHits E domain l1 = countHits E domain l2.
Proof.
  unfold countHits.
  induction 1 as [|x l l' _ IH|x y l|l l' l'' _ IH1 _ IH2]; cbn [List.filter].
  - reflexivity.
  - destruct (dblListed E domain x); cbn [length]; congruence.
  - destruct (dblListed E domain x), (dblListed E domain y); reflexivity.
  - congruence.
Qed.

Lemma probeEvents_Permutation domain (l1 l2 : list string) :
  l1 ≡ₚ l2 -> probeEvents domain l1 ≡ₚ probeEvents domain l2.
Proof. intros H. unfold probeEvents. apply Permutation_map, H. Qed.

Lemma iter_addDnsblHit_dnsblhit domain k c :
  dnsblhit (Nat.iter k (addDnsblHit domain) c) = dnsblhit c ++ repeat domain k.
Proof.
  induction k as [|k IH].
  - cbn [Nat.iter repeat]. rewrite app_nil_r. reflexivity.
  - rewrite Nat.iter_succ. unfold addDnsblHit at 1.
    cbn [set_dnsblhit dnsblhit repeat]. rewrite IH, <- app_assoc.
    rewrite repeat_cons. reflexivity.
Qed.

Section DblOrder.

Variable E : Collab.
Variable domain : string.

(** The probe loop, whatever the order of [keys]: every key is probed in
    turn, the result is the OR of the probes, and each hit records the
    rule's DBL domain once. *)
Lemma DblNode_probe_spec (keys : list string) :
  forall (r : bool) (w : World),
    DblNode_probe E domain keys r w
    = Ret (r || existsb (dblListed E domain) keys)
          {| ctx := Nat.iter (countHits E domain keys)
                             (addDnsblHit domain) (ctx w);
             calls := calls w ++ probeEvents domain keys |}.
Proof.
  unfold countHits, probeEvents.
  induction keys as [|s rest IH]; intros r w;
    cbn [DblNode_probe existsb List.filter map length Nat.iter].
  - unfold ret. rewrite orb_false_r, app_nil_r. destruct w; reflexivity.
  - unfold callDnsblRes, bind, emit, ret, modifyCtx. cbn [ctx calls].
    fold (dblQuery domain s). fold (dblListed E domain s).
    destruct (dblListed E domain s) eqn:Hs.
    + rewrite IH. cbn [ctx calls length]. rewrite Nat.iter_succ_r.
      rewrite orb_true_r. cbn [orb]. rewrite <- app_assoc. reflexivity.
    + rewrite IH. cbn [ctx calls orb]. rewrite <- app_assoc. reflexivity.
Qed.

(** The probe loop consults the blocklist alone. *)
Lemma DblNode_probe_withOrder (ord : gset string -> list string)
    (keys : list string) :
  forall r w, DblNode_probe (withOrder E ord) domain keys r w
              = DblNode_probe E domain keys r w.
Proof.
  induction keys as [|s rest IH]; intros r w; cbn [DblNode_probe];
    [reflexivity|].
  unfold callDnsblRes, bind, emit, ret, modifyCtx.
  cbn [getDnsblRes withOrder].
  destruct (getDnsblRes E (s +:+ "." +:+ domain)); apply IH.
Qed.

(** [DblNode.Eval] under an order that enumerates the candidate map: the
    early return on an empty map agrees with the loop over no key. *)
Lemma DblNode_Eval_probe (ord : gset string -> list string)
    (src : Option) (w : World) :
  (forall s : gset string, ord s ≡ₚ elements s) ->
  Eval (withOrder E ord) (DblNode domain src) w
  = match DblNode_check E src (ctx w) with
    | Some ck => DblNode_probe E domain (ord ck) false w
    | None => Panic
    end.
Proof.
  intros Hord. cbn [Eval]. unfold DblNode_Eval, bind, getCtx.
  change (DblNode_check (withOrder E ord) src (ctx w))
    with (DblNode_check E src (ctx w)).
  destruct (DblNode_check E src (ctx w)) as [ck|]; cbn [orPanic];
    [|reflexivity].
  unfold ret at 1. cbn [rangeOrder withOrder].
  destruct (Nat.eqb_spec (size ck) 0) as [Hsz|Hsz].
  - apply size_empty_inv in Hsz. apply leibniz_equiv in Hsz. subst ck.
    pose proof (Hord ∅) as Hp. rewrite elements_empty in Hp.
    symmetry in Hp. apply Permutation_nil in Hp. rewrite Hp. reflexivity.
  - apply DblNode_probe_withOrder.
Qed.

(** C3. For two iteration orders over the candidate map, [DblNode.Eval]
    returns the same boolean and leaves the same context (so the same
    DNSBL-hit log), and makes the same probes up to their order. Every
    candidate is probed, also after a hit; the result is true exactly
    when some candidate is listed; each hit records the rule's DBL domain,
    not the candidate name. Both evaluations panic together, exactly when
    the candidate map cannot be built. *)
Theorem DblNode_Eval_order_independent
    (ord1 ord2 : gset string -> list string) (src : Option) (w : World) :
  rangeOrder_ok (withOrder E ord1) ->
  rangeOrder_ok (withOrder E ord2) ->
  match Eval (withOrder E ord1) (DblNode domain src) w,
        Eval (withOrder E ord2) (DblNode domain src) w with
  | Ret b1 w1, Ret b2 w2 =>
      b1 = b2 /\ ctx w1 = ctx w2 /\ calls w1 ≡ₚ calls w2
      /\ exists ck,
          DblNode_check E src (ctx w) = Some ck
          /\ (b1 = true <-> exists s, s ∈ ck /\ dblListed E domain s = true)
          /\ calls w1 ≡ₚ calls w ++ probeEvents domain (elements ck)
          /\ dnsblhit (ctx w1)
             = dnsblhit (ctx w)
                 ++ repeat domain (countHits E domain (elements ck))
  | Panic, Panic => DblNode_check E src (ctx w) = None
  | _, _ => False
  end.
Proof.
  unfold rangeOrder_ok. cbn [rangeOrder withOrder]. intros H1 H2.
  rewrite !DblNode_Eval_probe by assumption.
  destruct (DblNode_check E src (ctx w)) as [ck|]; [|reflexivity].
  rewrite !DblNode_probe_spec. cbn [orb ctx calls].
  pose proof (H1 ck) as P1. pose proof (H2 ck) as P2.
  assert (P12 : ord1 ck ≡ₚ ord2 ck) by (rewrite P1, P2; reflexivity).
  split; [apply existsb_Permutation, P12|].
  split; [rewrite (countHits_Permutation _ _ _ _ P12); reflexivity|].
  split; [apply Permutation_app_head, probeEvents_Permutation, P12|].
  exists ck. split; [reflexivity|]. split; [|split].
  - rewrite (existsb_Permutation _ _ _ P1), existsb_exists.
    split; intros (s & Hs & Hl); exists s; split; try exact Hl.
    + apply elem_of_elements, list_elem_of_In, Hs.
    + apply list_elem_of_In, elem_of_elements, Hs.
  - apply Permutation_app_head, probeEvents_Permutation, P1.
  - rewrite iter_addDnsblHit_dnsblhit.
    rewrite (countHits_Permutation _ _ _ _ P1). reflexivity.
Qed.

End DblOrder.

(** Witness of C3: the order of [elements] against its reverse, for
    [dbl any] on the sample context. *)
Lemma DblNode_Eval_order_independent_witness :
  match Eval (withOrder Sample.collab elements) (DblNode "dbl.test" oAny)
             Sample.world,
        Eval (withOrder Sample.collab (fun s => rev (elements s)))
             (DblNode "dbl.test" oAny) Sample.world with
  | Ret b1 w1, Ret b2 w2 =>
      b1 = b2 /\ ctx w1 = ctx w2 /\ calls w1 ≡ₚ calls w2
      /\ exists ck,
          DblNode_check Sample.collab oAny Sample.context = Some ck
          /\ (b1 = true <->
              exists s, s ∈ ck /\ dblListed Sample.collab "dbl.test" s = true)
          /\ calls w1 ≡ₚ calls Sample.world
                           ++ probeEvents "dbl.test" (elements ck)
          /\ dnsblhit (ctx w1)
             = dnsblhit Sample.context
                 ++ repeat "dbl.test"
                      (countHits Sample.collab "dbl.test" (elements ck))
  | Panic, Panic => DblNode_check Sample.collab oAny Sample.context = None
  | _, _ => False
  end.
Proof.
  apply (DblNode_Eval_order_independent Sample.collab "dbl.test"
           elements (fun s => rev (elements s)) oAny Sample.world).
  - intros s. reflexivity.
  - intros s. symmetry. apply Permutation_rev.
Defined.

(* ===================================================================== *)
(** ** Mail-domain validity *)
(* ===================================================================== *)

Section Validity.

Variable R : Resolver.

(** [checkIP] makes one lookup, and its verdict does not depend on the
    lookups made before. *)
Lemma checkIP_trace (domain : string) (tr : list NetCall) :
  checkIP R domain tr
  = (fst (checkIP R domain []), tr ++ [CallLookupIP domain]).
Proof.
  unfold checkIP. destruct (LookupIP R domain) as [addrs [e|]].
  - destruct (isTemporary e); reflexivity.
  - destruct (Nat.eqb (length addrs) 0); reflexivity.
Qed.

Lemma checkIP_addrs_class (domain : string) (addrs : list IP) :
  fst (checkIP_addrs R domain addrs) = dnsBad
  \/ fst (checkIP_addrs R domain addrs) = dnsGood.
Proof.
  induction addrs as [|i rest IH]; cbn [checkIP_addrs].
  - right. reflexivity.
  - destruct (negb (IsGlobalUnicast R i)); [left; reflexivity|].
    destruct (Contains R net10 i || Contains R net172 i
              || Contains R net192 i || Contains R ipv6private i
              || Contains R ipv6siteloc i); [left; reflexivity|exact IH].
Qed.

(** [checkIP] classifies: bad, tempfail or good. *)
Lemma checkIP_class (domain : string) (tr : list NetCall) :
  let v := fst (fst (checkIP R domain tr)) in
  v = dnsBad \/ v = dnsTempfail \/ v = dnsGood.
Proof.
  unfold checkIP. destruct (LookupIP R domain) as [addrs [e|]].
  - destruct (isTemporary e); cbn; auto.
  - destruct (Nat.eqb (length addrs) 0); cbn [fst]; [auto|].
    destruct (checkIP_addrs_class domain addrs) as [H|H]; auto.
Qed.

Lemma targetVerdict_range (m : MX) :
  (dnsBad <= fst (targetVerdict R m) <= dnsGood)%Z.
Proof.
  unfold targetVerdict.
  destruct (checkIP_class (Host m) []) as [H|[H|H]]; cbn zeta in H;
    rewrite H; unfold dnsBad, dnsTempfail, dnsGood; lia.
Qed.

(** The two tests of the MX loop, as propositions. *)
Lemma null_test_spec (m : MX) :
  String.eqb (Host m) "." && N.eqb (Pref m) 0 = true <-> nullMX m.
Proof.
  unfold nullMX. rewrite andb_true_iff, String.eqb_eq, N.eqb_eq.
  reflexivity.
Qed.

Lemma bogus_test_spec (m : MX) :
  String.eqb (GoStr.ToLower (Host m)) "."
  || String.eqb (GoStr.ToLower (Host m)) "localhost." = true
  <-> bogusTarget m.
Proof.
  unfold bogusTarget. rewrite orb_true_iff, !String.eqb_eq. reflexivity.
Qed.

Lemma nullMX_bogusTarget (m : MX) : nullMX m -> bogusTarget m.
Proof. intros [H _]. left. rewrite H. reflexivity. Qed.

(** One turn of the MX loop on a record that passes both tests. *)
Lemma ValidDomain_loop_step (domain : string) (m : MX) (rest : list MX)
    (valid : dnsResult) (verr : option error) (tr : list NetCall) :
  ~ bogusTarget m ->
  ValidDomain_loop R domain (m :: rest) valid verr tr
  = if (valid <? fst (targetVerdict R m))%Z
    then ValidDomain_loop R domain rest (fst (targetVerdict R m))
           (snd (targetVerdict R m)) (tr ++ [CallLookupIP (Host m)])
    else ValidDomain_loop R domain rest valid verr
           (tr ++ [CallLookupIP (Host m)]).
Proof.
  intros Hok. cbn [ValidDomain_loop].
  destruct (String.eqb (Host m) "." && N.eqb (Pref m) 0) eqn:Hnull.
  - apply null_test_spec, nullMX_bogusTarget in Hnull. contradiction.
  - destruct (String.eqb (GoStr.ToLower (Host m)) "."
              || String.eqb (GoStr.ToLower (Host m)) "localhost.")
      eqn:Hbogus.
    + apply bogus_test_spec in Hbogus. contradiction.
    + rewrite checkIP_trace. unfold targetVerdict.
      destruct (fst (checkIP R (Host m) [])) as [v err]. reflexivity.
Qed.

(** The MX loop when no record is rejected: all targets are resolved; the
    classification is the larger of the starting one and the best among
    the targets; the error stays the starting one unless a target beats
    the starting classification, and is then that of the first target
    with the final classification. *)
Lemma ValidDomain_loop_best (domain : string) (mxs : list MX) :
  forall (valid : dnsResult) (verr : option error) (tr : list NetCall),
    Forall (fun m => ~ bogusTarget m) mxs ->
    (dnsUndef <= valid)%Z ->
    exists v e,
      ValidDomain_loop R domain mxs valid verr tr
      = ((v, e), tr ++ targetLookups mxs)
      /\ v = Z.max valid (bestClass R mxs)
      /\ ((v = valid /\ e = verr)
          \/ ((valid < v)%Z
              /\ exists i m,
                  mxs !! i = Some m /\ targetVerdict R m = (v, e)
                  /\ forall j m', j < i -> mxs !! j = Some m' ->
                                  (fst (targetVerdict R m') < v)%Z)).
Proof.
  unfold bestClass, targetLookups.
  induction mxs as [|m rest IH]; intros valid verr tr Hok Hpos.
  - exists valid, verr. cbn [ValidDomain_loop map fold_right].
    rewrite app_nil_r. split; [reflexivity|].
    split; [unfold dnsUndef in *; lia | left; auto].
  - inversion Hok as [|m0 rest0 Hm Hrest]; subst.
    rewrite (ValidDomain_loop_step _ _ _ _ _ _ Hm).
    cbn [map fold_right].
    pose proof (targetVerdict_range m) as Hrange.
    destruct (targetVerdict R m) as [v1 e1] eqn:Hv1. cbn [fst snd] in *.
    destruct (Z.ltb_spec valid v1) as [Hlt|Hge].
    + destruct (IH v1 e1 (tr ++ [CallLookupIP (Host m)]) Hrest)
        as (v & e & Hloop & Hv & Herr); [unfold dnsUndef, dnsBad in *; lia|].
      exists v, e. rewrite Hloop, <- app_assoc.
      split; [reflexivity|]. split; [lia|]. right.
      destruct Herr as [[-> ->]|(Hlt' & i & m' & Hi & Hm' & Hbefore)].
      * split; [exact Hlt|]. exists 0, m.
        split; [reflexivity|]. split; [exact Hv1|]. intros j m' Hj. lia.
      * split; [lia|]. exists (S i), m'.
        split; [exact Hi|]. split; [exact Hm'|].
        intros [|j] m'' Hj Hlook.
        -- cbn in Hlook. inversion Hlook; subst. rewrite Hv1. exact Hlt'.
        -- apply (Hbefore j); [lia | exact Hlook].
    + destruct (IH valid verr (tr ++ [CallLookupIP (Host m)]) Hrest Hpos)
        as (v & e & Hloop & Hv & Herr).
      exists v, e. rewrite Hloop, <- app_assoc.
      split; [reflexivity|]. split; [lia|].
      destruct Herr as [[-> ->]|(Hlt' & i & m' & Hi & Hm' & Hbefore)].
      * left. auto.
      * right. split; [exact Hlt'|]. exists (S i), m'.
        split; [exact Hi|]. split; [exact Hm'|].
        intros [|j] m'' Hj Hlook.
        -- cbn in Hlook. inversion Hlook; subst. rewrite Hv1. cbn [fst]. lia.
        -- apply (Hbefore j); [lia | exact Hlook].
Qed.

Lemma bestClass_upper (mxs : list MX) (m : MX) :
  m ∈ mxs -> (fst (targetVerdict R m) <= bestClass R mxs)%Z.
Proof.
  unfold bestClass. induction mxs as [|m0 rest IH]; intros Hin.
  - inversion Hin.
  - cbn [map fold_right]. apply elem_of_cons in Hin as [->|Hin].
    + lia.
    + specialize (IH Hin). lia.
Qed.

Lemma bestClass_nonneg (mxs : list MX) : (dnsUndef <= bestClass R mxs)%Z.
Proof.
  unfold bestClass. induction mxs as [|m0 rest IH]; cbn [map fold_right];
    lia.
Qed.

(** C4. If the MX lookup succeeds and no target is (case-insensitively)
    '.' or 'localhost.', [ValidDomain] resolves every target, in order and
    with no early exit; its classification is the maximum of
    [checkIP(target)] over the targets in the order bad < tempfail < good;
    and its error is the error of the first target whose classification
    is that maximum. *)
Theorem ValidDomain_best_of_targets (domain : string) (tr : list NetCall)
    (mxs : list MX) :
  LookupMX R (domain +:+ ".") = (mxs, None) ->
  Forall (fun m => ~ bogusTarget m) mxs ->
  exists v e,
    ValidDomain R domain tr
    = ((v, e), tr ++ CallLookupMX (domain +:+ ".") :: targetLookups mxs)
    /\ v = bestClass R mxs
    /\ (forall m, m ∈ mxs -> (fst (targetVerdict R m) <= v)%Z)
    /\ (mxs <> [] ->
        exists i m,
          mxs !! i = Some m /\ targetVerdict R m = (v, e)
          /\ forall j m', j < i -> mxs !! j = Some m' ->
                          (fst (targetVerdict R m') < v)%Z).
Proof.
  intros Hmx Hok. unfold ValidDomain. rewrite Hmx.
  destruct (ValidDomain_loop_best domain mxs dnsUndef None
              (tr ++ [CallLookupMX (domain +:+ ".")]) Hok)
    as (v & e & Hloop & Hv & Herr); [lia|].
  pose proof (bestClass_nonneg mxs) as Hnn.
  assert (Hbest : v = bestClass R mxs) by lia.
  exists v, e. rewrite Hloop, <- app_assoc.
  split; [reflexivity|]. split; [exact Hbest|].
  split; [intros m Hm; rewrite Hbest; apply bestClass_upper, Hm|].
  intros Hne. destruct Herr as [[Hv0 _]|(_ & Hex)]; [|exact Hex].
  destruct mxs as [|m rest]; [contradiction|].
  pose proof (bestClass_upper (m :: rest) m (list_elem_of_here _ _)) as Hup.
  pose proof (targetVerdict_range m) as Hrange.
  unfold dnsUndef, dnsBad in *. lia.
Qed.

(** The MX loop when some record is rejected: the classification is bad,
    and only the targets before the first such record are resolved. *)
Lemma ValidDomain_loop_rejects (domain : string) (mxs : list MX) :
  forall (valid : dnsResult) (verr : option error) (tr : list NetCall),
    Exists rejectsDomain mxs ->
    exists pre m post e,
      mxs = pre ++ m :: post
      /\ rejectsDomain m
      /\ Forall (fun m' => ~ rejectsDomain m') pre
      /\ ValidDomain_loop R domain mxs valid verr tr
         = ((dnsBad, Some e), tr ++ targetLookups pre).
Proof.
  unfold targetLookups.
  induction mxs as [|m rest IH]; intros valid verr tr Hex.
  - inversion Hex.
  - destruct (String.eqb (Host m) "." && N.eqb (Pref m) 0) eqn:Hnull.
    { exists [], m, rest. eexists. cbn [ValidDomain_loop app map].
      rewrite Hnull, app_nil_r.
      split; [reflexivity|]. split; [left; apply null_test_spec, Hnull|].
      split; [constructor | reflexivity]. }
    destruct (String.eqb (GoStr.ToLower (Host m)) "."
              || String.eqb (GoStr.ToLower (Host m)) "localhost.")
      eqn:Hbogus.
    { exists [], m, rest. eexists. cbn [ValidDomain_loop app map].
      rewrite Hnull, Hbogus, app_nil_r.
      split; [reflexivity|]. split; [right; apply bogus_test_spec, Hbogus|].
      split; [constructor | reflexivity]. }
    assert (Hm : ~ bogusTarget m).
    { intros H. apply bogus_test_spec in H. congruence. }
    assert (Hm' : ~ rejectsDomain m).
    { intros [H|H]; [apply nullMX_bogusTarget in H|]; contradiction. }
    apply Exists_cons in Hex as [Hex|Hex]; [contradiction|].
    rewrite (ValidDomain_loop_step _ _ _ _ _ _ Hm).
    destruct (valid <? fst (targetVerdict R m))%Z.
    + destruct (IH (fst (targetVerdict R m)) (snd (targetVerdict R m))
                  (tr ++ [CallLookupIP (Host m)]) Hex)
        as (pre & m1 & post & e & -> & Hrej & Hpre & Hloop).
      exists (m :: pre), m1, post, e. rewrite Hloop, <- app_assoc.
      split; [reflexivity|]. split; [exact Hrej|].
      split; [constructor; assumption | reflexivity].
    + destruct (IH valid verr (tr ++ [CallLookupIP (Host m)]) Hex)
        as (pre & m1 & post & e & -> & Hrej & Hpre & Hloop).
      exists (m :: pre), m1, post, e. rewrite Hloop, <- app_assoc.
      split; [reflexivity|]. split; [exact Hrej|].
      split; [constructor; assumption | reflexivity].
Qed.

(** C5. If the MX lookup succeeds and some record has target exactly '.'
    with preference 0, or a target case-insensitively equal to '.' or
    'localhost.' at any preference, [ValidDomain] classifies the domain
    bad whatever the other records are, and does so at the first such
    record: only the targets before it are resolved, none after it. *)
Theorem ValidDomain_rejecting_mx (domain : string) (tr : list NetCall)
    (mxs : list MX) :
  LookupMX R (domain +:+ ".") = (mxs, None) ->
  Exists rejectsDomain mxs ->
  exists pre m post e,
    mxs = pre ++ m :: post
    /\ rejectsDomain m
    /\ Forall (fun m' => ~ rejectsDomain m') pre
    /\ ValidDomain R domain tr
       = ((dnsBad, Some e),
          tr ++ CallLookupMX (domain +:+ ".") :: targetLookups pre).
Proof.
  intros Hmx Hex. unfold ValidDomain. rewrite Hmx.
  destruct (ValidDomain_loop_rejects domain mxs dnsUndef None
              (tr ++ [CallLookupMX (domain +:+ ".")]) Hex)
    as (pre & m & post & e & Hsplit & Hrej & Hpre & Hloop).
  exists pre, m, post, e. rewrite Hloop, <- app_assoc. auto.
Qed.

End Validity.


(** C2. The MX lookup of [nomx.example.] succeeds with no record; the loop
    is not entered and [ValidDomain] returns the starting value [dnsUndef]
    with no error, which is none of bad, tempfail and good. *)
Theorem ValidDomain_empty_mx_undef :
  ValidDomain Sample.resolver "nomx.example" []
  = ((dnsUndef, None), [CallLookupMX "nomx.example."])
  /\ dnsUndef <> dnsBad /\ dnsUndef <> dnsTempfail /\ dnsUndef <> dnsGood.
Proof. repeat split; discriminate. Qed.

(** Witness of C4: of the two targets of [two.example.], the first does not
    resolve (bad) and the second is good; both are resolved, the result is
    good, and it carries the (absent) error of the second. *)
Lemma ValidDomain_best_of_targets_witness :
  exists v e,
    ValidDomain Sample.resolver "two.example" []
    = ((v, e), [] ++ CallLookupMX ("two.example" +:+ ".")
                 :: targetLookups Sample.twoMX)
    /\ v = bestClass Sample.resolver Sample.twoMX
    /\ (forall m, m ∈ Sample.twoMX ->
                  (fst (targetVerdict Sample.resolver m) <= v)%Z)
    /\ (Sample.twoMX <> [] ->
        exists i m,
          Sample.twoMX !! i = Some m
          /\ targetVerdict Sample.resolver m = (v, e)
          /\ forall j m', j < i -> Sample.twoMX !! j = Some m' ->
                          (fst (targetVerdict Sample.resolver m') < v)%Z).
Proof.
  apply (ValidDomain_best_of_targets Sample.resolver "two.example" []
           Sample.twoMX).
  - reflexivity.
  - repeat constructor; intros [H|H]; vm_compute in H; discriminate H.
Defined.

(** Witness of C5: [null.example.] has a good target, then [LocalHost.],
    then another target; the domain is bad and the last target is never
    resolved. *)
Lemma ValidDomain_rejecting_mx_witness :
  exists pre m post e,
    Sample.nullRouteMX = pre ++ m :: post
    /\ rejectsDomain m
    /\ Forall (fun m' => ~ rejectsDomain m') pre
    /\ ValidDomain Sample.resolver "null.example" []
       = ((dnsBad, Some e),
          [] ++ CallLookupMX ("null.example" +:+ ".") :: targetLookups pre).
Proof.
  apply (ValidDomain_rejecting_mx Sample.resolver "null.example" []
           Sample.nullRouteMX).
  - reflexivity.
  - apply Exists_cons_tl, Exists_cons_hd. right. right. reflexivity.
Defined.

(** Witness of C1: in [Sample.trapRule] the second clause evaluates to true
    (a [not] over a matcher that found no pattern) with the signal raised;
    the rule as a whole does not match, and the [all] clause is never
    evaluated. *)
Lemma check_rulemiss_abandons_rule_witness :
  check Sample.collab Sample.trapRule Sample.world = Ret false Sample.trapWorld
  /\ withprops (ctx Sample.trapWorld) = withprops (ctx Sample.world).
Proof.
  apply (proj2 (check_rulemiss_abandons_rule Sample.collab Sample.trapRule
                  Sample.world)
           [Sample.helloClause] [Sample.allClause] Sample.fileClause true
           {| ctx := set_rulemiss false Sample.context;
              calls := [EvMatchList "other.example"] |}).
  - reflexivity.
  - reflexivity.
  - reflexivity.
  - reflexivity.
Defined.

(* ===================================================================== *)
(** ** What evaluation leaves alone *)
(* ===================================================================== *)

Lemma extends_refl w : extends w w.
Proof.
  constructor; try reflexivity; [auto | exists []; symmetry; apply app_nil_r
                                | exists []; symmetry; apply app_nil_r].
Qed.

Lemma extends_trans w1 w2 w3 : extends w1 w2 -> extends w2 w3 -> extends w1 w3.
Proof.
  intros [T1 H1 F1 R1 W1 M1 [h1 D1] [e1 C1]] [T2 H2 F2 R2 W2 M2 [h2 D2] [e2 C2]].
  constructor; try congruence; [auto | |].
  - exists (h1 ++ h2). rewrite D2, D1, app_assoc. reflexivity.
  - exists (e1 ++ e2). rewrite C2, C1, app_assoc. reflexivity.
Qed.

Lemma steady_ret {A} (a : A) : steady (ret a).
Proof. intros w a' w' H. inversion H. apply extends_refl. Qed.

Lemma steady_bind {A B} (m : M A) (k : A -> M B) :
  steady m -> (forall a, steady (k a)) -> steady (bind m k).
Proof.
  intros Hm Hk w b w'' H. apply bind_inv in H as (a & w' & H1 & H2).
  exact (extends_trans _ _ _ (Hm _ _ _ H1) (Hk _ _ _ _ H2)).
Qed.

Lemma steady_getCtx : steady getCtx.
Proof. intros w a w' H. inversion H. apply extends_refl. Qed.

Lemma steady_orPanic {A} (o : option A) : steady (orPanic o).
Proof. destruct o; intros w a' w' H; inversion H. apply extends_refl. Qed.

Lemma steady_if {A} (b : bool) (m1 m2 : M A) :
  steady m1 -> steady m2 -> steady (if b then m1 else m2).
Proof. destruct b; auto. Qed.

Lemma steady_emit e : steady (emit e).
Proof.
  intros w a w' H. inversion H.
  constructor; cbn; try reflexivity; [auto | exists []; symmetry; apply app_nil_r
                                      | exists [e]; reflexivity].
Qed.

Lemma steady_raise : steady (modifyCtx (set_rulemiss true)).
Proof.
  intros w a w' H. inversion H.
  constructor; cbn; try reflexivity;
    exists []; symmetry; apply app_nil_r.
Qed.

Lemma steady_addDnsblHit domain : steady (modifyCtx (addDnsblHit domain)).
Proof.
  intros w a w' H. inversion H.
  constructor; cbn; try reflexivity; [auto | exists [domain]; reflexivity
                                      | exists []; symmetry; apply app_nil_r].
Qed.

Section EvalInvariants.

Variable E : Collab.

Lemma steady_callDnsblRes name : steady (callDnsblRes E name).
Proof.
  apply steady_bind; [apply steady_emit | intros; apply steady_ret].
Qed.

Lemma steady_DblNode_probe domain keys :
  forall r, steady (DblNode_probe E domain keys r).
Proof.
  induction keys as [|s rest IH]; intros r; cbn [DblNode_probe].
  - apply steady_ret.
  - apply steady_bind; [apply steady_callDnsblRes|].
    intros res. apply steady_if; [|apply IH].
    apply steady_bind; [apply steady_addDnsblHit | intros _; apply IH].
Qed.

Lemma steady_DNSblN_Eval domain : steady (DNSblN_Eval E domain).
Proof.
  unfold DNSblN_Eval, index.
  apply steady_bind; [apply steady_getCtx|]. intros c.
  repeat (apply steady_if; [apply steady_ret|]).
  repeat (apply steady_bind; [apply steady_orPanic|]; intros ?).
  apply steady_bind; [apply steady_callDnsblRes|]. intros res.
  apply steady_if; [|apply steady_ret].
  apply steady_bind; [apply steady_addDnsblHit | intros; apply steady_ret].
Qed.

Lemma steady_MatchN_Eval arg matcher getter :
  steady (MatchN_Eval E arg matcher getter).
Proof.
  unfold MatchN_Eval, callMatchList.
  apply steady_bind.
  { apply steady_bind; [apply steady_emit | intros; apply steady_ret]. }
  intros plist. apply steady_if.
  - apply steady_bind; [apply steady_raise | intros; apply steady_ret].
  - apply steady_bind; [apply steady_getCtx | intros; apply steady_ret].
Qed.

Lemma steady_DblNode_Eval domain src : steady (DblNode_Eval E domain src).
Proof.
  unfold DblNode_Eval.
  apply steady_bind; [apply steady_getCtx|]. intros c.
  apply steady_bind; [apply steady_orPanic|]. intros ck.
  apply steady_if; [apply steady_ret | apply steady_DblNode_probe].
Qed.

(** Every expression is steady. *)
Lemma steady_Eval (e : Expr) : steady (Eval E e).
Proof.
  induction e as [nodes IH|node IH|l r IHl IHr| |on|domain
                  |what arg matcher getter|arg h e f IHh IHe IHf
                  |domain src|what opts getter] using Expr_nested_ind.
  - rewrite Eval_AndL. induction IH as [|n ns Hn _ IHns];
      cbn [AndL_loop]; [apply steady_ret|].
    apply steady_bind; [exact Hn|]. intros a.
    apply steady_if; [apply steady_ret | exact IHns].
  - cbn [Eval]. apply steady_bind; [exact IH|]. intros; apply steady_ret.
  - cbn [Eval]. apply steady_bind; [exact IHl|]. intros a.
    apply steady_if; [apply steady_ret | exact IHr].
  - apply steady_ret.
  - cbn [Eval]. apply steady_bind; [apply steady_getCtx|].
    intros; apply steady_ret.
  - apply steady_DNSblN_Eval.
  - apply steady_MatchN_Eval.
  - cbn [Eval]. apply steady_bind; [exact IHh|]. intros a.
    apply steady_bind.
    + apply steady_if; [apply steady_ret | exact IHe].
    + intros ab. apply steady_if; [apply steady_ret | exact IHf].
  - apply steady_DblNode_Eval.
  - cbn [Eval]. apply steady_bind; [apply steady_getCtx|].
    intros; apply steady_ret.
Qed.

(** X1. Evaluating an expression reads the connection data but never
    writes it: the transaction (remote IP, TLS flag, reverse-DNS lists),
    the HELO name, the MAIL FROM and RCPT TO addresses and the accumulated
    with-properties are the same afterwards. *)
Theorem Eval_reads_only (e : Expr) (w w' : World) (b : bool) :
  Eval E e w = Ret b w' ->
  trans (ctx w') = trans (ctx w)
  /\ heloname (ctx w') = heloname (ctx w)
  /\ from (ctx w') = from (ctx w)
  /\ rcptto (ctx w') = rcptto (ctx w)
  /\ withprops (ctx w') = withprops (ctx w).
Proof.
  intros H. destruct (steady_Eval e _ _ _ H). auto.
Qed.

(** X2. Evaluating an expression never clears the data-unavailable signal
    (so a [not] around a matcher that raised it does not hide it), and it
    only appends to the DNSBL-hit log and to the log of collaborator
    calls. *)
Theorem Eval_signal_and_logs (e : Expr) (w w' : World) (b : bool) :
  Eval E e w = Ret b w' ->
  (rulemiss (ctx w) = true -> rulemiss (ctx w') = true)
  /\ (exists hits, dnsblhit (ctx w') = dnsblhit (ctx w) ++ hits)
  /\ (exists evs, calls w' = calls w ++ evs).
Proof.
  intros H. destruct (steady_Eval e _ _ _ H). auto.
Qed.

End EvalInvariants.

Lemma Eval_reads_only_witness :
  trans (ctx Sample.trapWorld) = trans (ctx Sample.world)
  /\ heloname (ctx Sample.trapWorld) = heloname (ctx Sample.world)
  /\ from (ctx Sample.trapWorld) = from (ctx Sample.world)
  /\ rcptto (ctx Sample.trapWorld) = rcptto (ctx Sample.world)
  /\ withprops (ctx Sample.trapWorld) = withprops (ctx Sample.world).
Proof.
  apply (Eval_reads_only Sample.collab
           (AndL [NotN (newHeloNode Sample.collab "other.example");
                  NotN (newFromNode Sample.collab "/missing/file")])
           Sample.world Sample.trapWorld true).
  reflexivity.
Defined.

Lemma Eval_signal_and_logs_witness :
  (rulemiss (ctx Sample.world) = true -> rulemiss (ctx Sample.trapWorld) = true)
  /\ (exists hits, dnsblhit (ctx Sample.trapWorld)
                   = dnsblhit (ctx Sample.world) ++ hits)
  /\ (exists evs, calls Sample.trapWorld = calls Sample.world ++ evs).
Proof.
  apply (Eval_signal_and_logs Sample.collab
           (AndL [NotN (newHeloNode Sample.collab "other.example");
                  NotN (newFromNode Sample.collab "/missing/file")])
           Sample.world Sample.trapWorld true).
  reflexivity.
Defined.

(* ===================================================================== *)
(** ** Absence of panics *)
(* ===================================================================== *)

Lemma extends_rdnsNames w w' :
  extends w w' -> rdnsNames (ctx w') = rdnsNames (ctx w).
Proof. intros [T _ _ _ _ _ _ _]. unfold rdnsNames. rewrite T. reflexivity. Qed.

Lemma returns_ret {A} (a : A) : returns (ret a).
Proof. intros w _. unfold ret. eauto. Qed.

Lemma returns_bind {A B} (m : M A) (k : A -> M B) :
  returns m -> steady m -> (forall a, returns (k a)) -> returns (bind m k).
Proof.
  intros Hm Hs Hk w Hw. destruct (Hm w Hw) as (a & w' & Ha).
  rewrite (bind_Ret _ _ _ _ _ Ha). apply Hk.
  rewrite (extends_rdnsNames _ _ (Hs _ _ _ Ha)). exact Hw.
Qed.

Lemma returns_if {A} (b : bool) (m1 m2 : M A) :
  returns m1 -> returns m2 -> returns (if b then m1 else m2).
Proof. destruct b; auto. Qed.

Lemma returns_getCtx : returns getCtx.
Proof. intros w _. unfold getCtx. eauto. Qed.

Lemma returns_emit e : returns (emit e).
Proof. intros w _. unfold emit. eauto. Qed.

Lemma returns_modifyCtx f : returns (modifyCtx f).
Proof. intros w _. unfold modifyCtx. eauto. Qed.

(** The candidate map of [DblNode.Eval] can fail to exist only through the
    slices of the host source. *)
Lemma DblNode_check_None (E : Collab) (src : Option) (c : Context) :
  DblNode_check E src c = None ->
  N.land src oHost = oHost /\ EmptyString ∈ rdnsNames c.
Proof.
  intros Hnone. destruct (N.eqb_spec (N.land src oHost) oHost) as [Hh|Hh].
  - split; [exact Hh|].
    destruct (DblNode_check_host E src c Hh) as [ck0 Hck].
    destruct (addChopped (rdnsNames c) ck0) as [ck1|] eqn:Hadd.
    + destruct Hck as (ck & Hsome & _). congruence.
    + apply (addChopped_None _ ck0), Hadd.
  - exfalso. unfold DblNode_check in Hnone.
    destruct (N.eqb_spec (N.land src oHost) oHost) as [|_]; [contradiction|].
    destruct (N.eqb (N.land src oFrom) oFrom
              && negb (String.eqb (from c) EmptyString)); [|discriminate].
    destruct (negb (N.eqb (N.land (getAddrOpts E (from c) c)
                (N.lor (N.lor oDomainValid oDomainInvalid) oDomainTempfail)) 0));
      [|discriminate].
    destruct (sliceFrom_after_IndexByte (from c) "@") as [t Ht].
    rewrite Ht in Hnone. discriminate.
Qed.

Section NoPanic.

Variable E : Collab.

(** The four index expressions of [DNSblN.Eval] are guarded by the length
    test: it returns from every state. *)
Lemma DNSblN_Eval_returns (domain : string) (w : World) :
  exists b w', DNSblN_Eval E domain w = Ret b w'.
Proof.
  unfold DNSblN_Eval, bind, getCtx, index.
  destruct (String.eqb (rip (trans (ctx w))) EmptyString); [unfold ret; eauto|].
  destruct (GoStr.Split "." (rip (trans (ctx w))))
    as [|s0 [|s1 [|s2 [|s3 [|s4 rest]]]]]; cbn; try (unfold ret; eauto).
  unfold callDnsblRes, bind, emit, ret, modifyCtx.
  destruct (getDnsblRes E _); eauto.
Qed.

Lemma returns_DblNode_Eval domain src : returns (DblNode_Eval E domain src).
Proof.
  intros w Hw. unfold DblNode_Eval, bind, getCtx.
  destruct (DblNode_check E src (ctx w)) as [ck|] eqn:Hck.
  - cbn [orPanic]. unfold ret at 1.
    destruct (Nat.eqb (size ck) 0); [unfold ret; eauto|].
    apply DblNode_probe_returns.
  - apply DblNode_check_None in Hck as [_ Hin]. contradiction.
Qed.

Lemma returns_Eval (e : Expr) : returns (Eval E e).
Proof.
  induction e as [nodes IH|node IH|l r IHl IHr| |on|domain
                  |what arg matcher getter|arg h e f IHh IHe IHf
                  |domain src|what opts getter] using Expr_nested_ind.
  - rewrite Eval_AndL. induction IH as [|n ns Hn Hns IHns];
      cbn [AndL_loop]; [apply returns_ret|].
    apply returns_bind; [exact Hn | apply steady_Eval|]. intros a.
    apply returns_if; [apply returns_ret | exact IHns].
  - cbn [Eval]. apply returns_bind; [exact IH | apply steady_Eval|].
    intros; apply returns_ret.
  - cbn [Eval]. apply returns_bind; [exact IHl | apply steady_Eval|].
    intros a. apply returns_if; [apply returns_ret | exact IHr].
  - apply returns_ret.
  - cbn [Eval]. apply returns_bind;
      [apply returns_getCtx | apply steady_getCtx|].
    intros; apply returns_ret.
  - intros w _. apply DNSblN_Eval_returns.
  - cbn [Eval]. unfold MatchN_Eval, callMatchList.
    apply returns_bind.
    + apply returns_bind; [apply returns_emit | apply steady_emit|].
      intros; apply returns_ret.
    + apply steady_bind; [apply steady_emit | intros; apply steady_ret].
    + intros plist. apply returns_if.
      * apply returns_bind; [apply returns_modifyCtx | apply steady_raise|].
        intros; apply returns_ret.
      * apply returns_bind; [apply returns_getCtx | apply steady_getCtx|].
        intros; apply returns_ret.
  - cbn [Eval]. apply returns_bind; [exact IHh | apply steady_Eval|].
    intros a. apply returns_bind.
    + apply returns_if; [apply returns_ret | exact IHe].
    + apply steady_if; [apply steady_ret | apply steady_Eval].
    + intros ab. apply returns_if; [apply returns_ret | exact IHf].
  - apply returns_DblNode_Eval.
  - cbn [Eval]. apply returns_bind;
      [apply returns_getCtx | apply steady_getCtx|].
    intros; apply returns_ret.
Qed.

(** X3. If none of the three reverse-DNS lists of the connection holds the
    empty string, evaluating any expression returns a result: no index or
    slice expression of any node is out of range, however the expression
    is built and whatever the other connection data are. *)
Theorem Eval_never_panics (e : Expr) (w : World) :
  EmptyString ∉ rdnsNames (ctx w) ->
  exists b w', Eval E e w = Ret b w'.
Proof. apply returns_Eval. Qed.


End NoPanic.

Lemma Eval_never_panics_witness :
  exists b w',
    Eval Sample.collab
         (AndL [DblNode "dbl.test" oAny; DNSblN "dnsbl.test"]) Sample.world
    = Ret b w'.
Proof.
  apply Eval_never_panics. vm_compute.
  intros H. repeat (apply elem_of_cons in H as [H|H]; [discriminate H|]).
  inversion H.
Defined.


(* ===================================================================== *)
(** ** Laws of the combinators *)
(* ===================================================================== *)

Section CombinatorLaws.

Variable E : Collab.

Lemma AndL_loop_app (l1 l2 : list Expr) (w : World) :
  AndL_loop E (l1 ++ l2) w
  = bind (AndL_loop E l1)
         (fun r => if negb r then ret r else AndL_loop E l2) w.
Proof.
  revert w. induction l1 as [|n ns IH]; intros w; cbn [app AndL_loop].
  - reflexivity.
  - unfold bind in *. destruct (Eval E n w) as [[|] w1|]; cbn [negb].
    + apply IH.
    + reflexivity.
    + reflexivity.
Qed.

(** X5. The implicit AND is associative with unit [all], effects included:
    an empty [AndL] evaluates as [all], an [AndL] of one node evaluates as
    that node, and an [AndL] of two lists put end to end evaluates as the
    [AndL] of the two [AndL]s. *)
Theorem AndL_Eval_flatten (e : Expr) (l1 l2 : list Expr) (w : World) :
  Eval E (AndL []) w = Eval E AllN w
  /\ Eval E (AndL [e]) w = Eval E e w
  /\ Eval E (AndL (l1 ++ l2)) w = Eval E (AndL [AndL l1; AndL l2]) w.
Proof.
  split; [reflexivity|]. split.
  - cbn [Eval]. unfold bind. destruct (Eval E e w) as [[|] w1|]; reflexivity.
  - rewrite (Eval_AndL E (l1 ++ l2)), AndL_loop_app.
    rewrite (Eval_AndL E [AndL l1; AndL l2]). cbn [AndL_loop].
    rewrite !Eval_AndL. unfold bind.
    destruct (AndL_loop E l1 w) as [[|] w1|]; cbn [negb]; [|reflexivity..].
    destruct (AndL_loop E l2 w1) as [[|] w2|]; reflexivity.
Qed.

(** X6. [AndL.Eval] stops at the first operand that is false: when the
    operands before it evaluate to true, the result is false in the state
    that operand left, and no later operand is evaluated. *)
Theorem AndL_Eval_first_false (pre post : list Expr) (n : Expr)
    (w w1 w2 : World) :
  AndL_loop E pre w = Ret true w1 ->
  Eval E n w1 = Ret false w2 ->
  Eval E (AndL (pre ++ n :: post)) w = Ret false w2.
Proof.
  intros Hpre Hn. rewrite Eval_AndL, AndL_loop_app.
  rewrite (bind_Ret _ _ _ _ _ Hpre). cbn [negb AndL_loop].
  rewrite (bind_Ret _ _ _ _ _ Hn). reflexivity.
Qed.

(** X7. Negation laws, effects included: a double [not] evaluates as its
    operand, and De Morgan's laws hold between [or] and the implicit AND
    with their short circuits (in each law both sides evaluate the same
    operands in the same order). *)
Theorem NotN_Eval_laws (a b : Expr) (w : World) :
  Eval E (NotN (NotN a)) w = Eval E a w
  /\ Eval E (NotN (OrN a b)) w = Eval E (AndL [NotN a; NotN b]) w
  /\ Eval E (NotN (AndL [a; b])) w = Eval E (OrN (NotN a) (NotN b)) w.
Proof.
  cbn [Eval]. unfold bind, ret. repeat split.
  - destruct (Eval E a w) as [[|] w1|]; reflexivity.
  - destruct (Eval E a w) as [[|] w1|]; cbn [negb]; try reflexivity.
    destruct (Eval E b w1) as [[|] w2|]; reflexivity.
  - destruct (Eval E a w) as [[|] w1|]; cbn [negb]; try reflexivity.
    destruct (Eval E b w1) as [[|] w2|]; reflexivity.
Qed.

(** X8. [or] is associative, effects included. *)
Theorem OrN_Eval_assoc (a b c : Expr) (w : World) :
  Eval E (OrN (OrN a b) c) w = Eval E (OrN a (OrN b c)) w.
Proof.
  cbn [Eval]. unfold bind, ret.
  destruct (Eval E a w) as [[|] w1|]; reflexivity.
Qed.

(** X9. An attribute test is true exactly when the node's option set and
    the getter's option set share a bit ("has at least one of"), it leaves
    the state as it was, and a test for the union of two option sets
    evaluates as the [or] of the two tests. *)
Theorem OptionN_Eval_any_of (what : string) (o1 o2 : Option)
    (getter : Context -> Option) (w : World) :
  (exists b, Eval E (OptionN what o1 getter) w = Ret b w
             /\ (b = true <->
                 exists i, N.testbit o1 i = true
                           /\ N.testbit (getter (ctx w)) i = true))
  /\ Eval E (OptionN what (N.lor o1 o2) getter) w
     = Eval E (OrN (OptionN what o1 getter) (OptionN what o2 getter)) w.
Proof.
  cbn [Eval]. unfold bind, getCtx, ret. split.
  - eexists. split; [reflexivity|].
    rewrite N.ltb_lt. split.
    + intros Hpos.
      destruct (N.land o1 (getter (ctx w))) as [|p] eqn:Hland; [lia|].
      assert (Hi : N.testbit (N.pos p) (N.log2 (N.pos p)) = true)
        by (apply N.bit_log2; lia).
      rewrite <- Hland, N.land_spec in Hi. apply andb_true_iff in Hi.
      eexists. exact Hi.
    + intros (i & H1 & H2).
      destruct (N.land o1 (getter (ctx w))) as [|p] eqn:Hland; [|lia].
      assert (Hb : N.testbit (N.land o1 (getter (ctx w))) i = true)
        by (rewrite N.land_spec, H1, H2; reflexivity).
      rewrite Hland, N.bits_0 in Hb. discriminate.
  - rewrite N.land_lor_distr_l.
    destruct (N.land o1 (getter (ctx w))) as [|p]; cbn;
      destruct (N.land o2 (getter (ctx w))) as [|q]; reflexivity.
Qed.

(** [tls off] evaluates as [not tls on], and [tls on] as
    [not tls off]. *)
Theorem TlsN_Eval_negation (on : bool) (w : World) :
  Eval E (TlsN (negb on)) w = Eval E (NotN (TlsN on)) w.
Proof.
  cbn [Eval]. unfold bind, getCtx, ret.
  destruct on, (tlson (trans (ctx w))); reflexivity.
Qed.

End CombinatorLaws.

(** X10. The result of a pattern matcher does not depend on the order of
    the patterns in the resolved list, nor on the order of the literals
    the getter supplies: two pattern sources that resolve the argument to
    the same patterns in different orders, and two getters that supply the
    same literals in different orders, give the same outcome. *)
Theorem MatchN_Eval_order (E1 E2 : Collab) (what arg : string)
    (matcher : string -> string -> bool)
    (getter1 getter2 : Context -> list string) (w : World) :
  getMatchList E1 arg ≡ₚ getMatchList E2 arg ->
  getter1 (ctx w) ≡ₚ getter2 (ctx w) ->
  Eval E1 (MatchN what arg matcher getter1) w
  = Eval E2 (MatchN what arg matcher getter2) w.
Proof.
  intros Hp Hl. cbn [Eval].
  unfold MatchN_Eval, callMatchList, bind, emit, ret, getCtx, modifyCtx.
  cbn [ctx calls]. rewrite (Permutation_length Hp).
  destruct (Nat.eqb (length (getMatchList E2 arg)) 0); [reflexivity|].
  f_equal. apply eq_true_iff_eq. rewrite !match_loops_spec.
  split; intros (e & p & He & Hpp & Hm); exists e, p.
  - rewrite <- Hl, <- Hp. auto.
  - rewrite Hl, Hp. auto.
Qed.

Lemma MatchN_Eval_order_witness :
  Eval Sample.collab
       (MatchN "host" "mail.example." String.eqb
               (fun c => verified (rdns (trans c)) ++ nofwd (rdns (trans c))))
       Sample.world
  = Eval Sample.collab
         (MatchN "host" "mail.example." String.eqb
                 (fun c => nofwd (rdns (trans c)) ++ verified (rdns (trans c))))
         Sample.world.
Proof.
  apply MatchN_Eval_order.
  - reflexivity.
  - apply Permutation_app_comm.
Defined.

Lemma AndL_Eval_first_false_witness :
  Eval Sample.collab
       (AndL ([AllN] ++ newHeloNode Sample.collab "other.example"
                :: [newFromNode Sample.collab "/missing/file"]))
       Sample.world
  = Ret false {| ctx := Sample.context;
                 calls := [EvMatchList "other.example"] |}.
Proof.
  apply (AndL_Eval_first_false Sample.collab [AllN]
           [newFromNode Sample.collab "/missing/file"]
           (newHeloNode Sample.collab "other.example")
           Sample.world Sample.world).
  - reflexivity.
  - reflexivity.
Defined.

(* ===================================================================== *)
(** ** Outcomes of [Rule.check] *)
(* ===================================================================== *)

(** Merging a clause's with-options: its options win, the others stay. *)
Lemma mergeWiths_union (ws : gmap string string) (c : Context) :
  withprops (mergeWiths ws c) = ws ∪ withprops c.
Proof.
  unfold mergeWiths, set_withprops. cbn [withprops].
  apply (map_fold_weak_ind
           (fun acc m => acc = m ∪ withprops c)
           (fun k v acc => <[ k := v ]> acc)).
  - symmetry. apply (left_id_L ∅ (∪)).
  - intros i x m r _ ->. apply insert_union_l.
Qed.

Section CheckOutcomes.

Variable E : Collab.

(** X11. Merging with-options into the context is a left-biased union: a
    key of the clause gets the clause's value (also when the value is the
    empty string), every other key keeps its earlier value, and nothing
    else of the context changes. *)
Theorem mergeWiths_lookup (ws : gmap string string) (c : Context) (k : string) :
  withprops (mergeWiths ws c) !! k
  = match ws !! k with
    | Some v => Some v
    | None => withprops c !! k
    end
  /\ trans (mergeWiths ws c) = trans c
  /\ rulemiss (mergeWiths ws c) = rulemiss c
  /\ dnsblhit (mergeWiths ws c) = dnsblhit c.
Proof.
  split; [|repeat split].
  rewrite mergeWiths_union, lookup_union.
  destruct (ws !! k), (withprops c !! k); reflexivity.
Qed.

Lemma check_loop_outcome (cls : list RClause) :
  forall (w w' : World) (b : bool),
    rulemiss (ctx w) = false ->
    check_loop E cls w = Ret b w' ->
    (b = false -> withprops (ctx w') = withprops (ctx w))
    /\ (b = true ->
        rulemiss (ctx w') = false
        /\ exists cl, cl ∈ cls
                      /\ withprops (ctx w') = withs cl ∪ withprops (ctx w)).
Proof.
  induction cls as [|cl rest IH]; intros w w' b Hclear H; cbn [check_loop] in H.
  - inversion H; subst. split; [reflexivity | discriminate].
  - apply bind_inv in H as (res & w1 & Hev & H).
    pose proof (steady_Eval E _ _ _ _ Hev) as Hext.
    unfold bind at 1, getCtx in H.
    destruct (rulemiss (ctx w1)) eqn:Hmiss.
    + inversion H; subst. split; [|discriminate].
      intros _. apply (ext_withprops _ _ Hext).
    + destruct res; cbn [negb] in H.
      * unfold bind, modifyCtx, ret in H. inversion H; subst. cbn [ctx].
        split; [discriminate|]. intros _. split; [exact Hmiss|].
        exists cl. split; [apply list_elem_of_here|].
        rewrite mergeWiths_union, (ext_withprops _ _ Hext). reflexivity.
      * destruct (IH _ _ _ Hmiss H) as [Hf Ht].
        rewrite (ext_withprops _ _ Hext) in Hf, Ht. split; [exact Hf|].
        intros Hb. destruct (Ht Hb) as (Hm & cl' & Hin & Hw).
        split; [exact Hm|]. exists cl'. split; [|exact Hw].
        apply list_elem_of_further, Hin.
Qed.

(** X12. What a [Rule.check] that returns has done: if the rule did not
    match, the accumulated with-properties are as before; if it matched,
    the data-unavailable signal is clear and the with-properties are those
    of one clause of the rule merged over the earlier ones. *)
Theorem check_outcome (r : Rule) (w w' : World) (b : bool) :
  check E r w = Ret b w' ->
  (b = false -> withprops (ctx w') = withprops (ctx w))
  /\ (b = true ->
      rulemiss (ctx w') = false
      /\ exists cl, cl ∈ clauses r
                    /\ withprops (ctx w') = withs cl ∪ withprops (ctx w)).
Proof.
  unfold check, bind at 1. cbn [modifyCtx]. intros H.
  apply check_loop_outcome in H; [exact H | reflexivity].
Qed.

(** X13. First match wins: when the clauses before a clause are passed
    over and that clause's expression is true with the signal clear,
    [check] returns true with that clause's with-options merged, and the
    later clauses are not evaluated. *)
Theorem check_first_match (r : Rule) (w w1 w2 : World)
    (pre post : list RClause) (cl : RClause) :
  clauses r = pre ++ cl :: post ->
  passOver E pre (withCtx (set_rulemiss false) w) = Some w1 ->
  Eval E (expr cl) w1 = Ret true w2 ->
  rulemiss (ctx w2) = false ->
  check E r w = Ret true (withCtx (mergeWiths (withs cl)) w2).
Proof.
  intros Hcl Hpre Hev Hmiss. unfold withCtx in Hpre.
  unfold check. unfold bind at 1. cbn [modifyCtx]. rewrite Hcl.
  rewrite (check_loop_passOver E pre (cl :: post) _ _ Hpre).
  cbn [check_loop]. rewrite (bind_Ret _ _ _ _ _ Hev).
  unfold bind, getCtx. rewrite Hmiss. reflexivity.
Qed.

(** X14. When every clause is passed over, [check] returns no-match in the
    state the last evaluation left, whose with-properties are the earlier
    ones. *)
Theorem check_no_match (r : Rule) (w w1 : World) :
  passOver E (clauses r) (withCtx (set_rulemiss false) w) = Some w1 ->
  check E r w = Ret false w1
  /\ withprops (ctx w1) = withprops (ctx w).
Proof.
  intros Hpre. split.
  - unfold withCtx in Hpre. unfold check. unfold bind at 1. cbn [modifyCtx].
    rewrite <- (app_nil_r (clauses r)).
    rewrite (check_loop_passOver E (clauses r) [] _ _ Hpre). reflexivity.
  - rewrite (passOver_keepsWithprops E _ _ _ Hpre). reflexivity.
Qed.

Lemma check_loop_app (cls rest : list RClause) :
  forall (w w' : World) (b : bool),
    rulemiss (ctx w) = false ->
    check_loop E cls w = Ret b w' ->
    check_loop E (cls ++ rest) w
    = if b || rulemiss (ctx w') then Ret b w' else check_loop E rest w'.
Proof.
  induction cls as [|cl cls' IH]; intros w w' b Hclear H;
    cbn [check_loop app] in *.
  - inversion H; subst. rewrite Hclear. reflexivity.
  - apply bind_inv in H as (res & w1 & Hev & H).
    rewrite (bind_Ret _ _ _ _ _ Hev).
    unfold bind at 1, getCtx in H. unfold bind at 1, getCtx.
    destruct (rulemiss (ctx w1)) eqn:Hmiss.
    + inversion H; subst. rewrite Hmiss. reflexivity.
    + destruct res; cbn [negb] in *.
      * unfold bind, modifyCtx, ret in *. inversion H; subst. reflexivity.
      * apply IH; assumption.
Qed.

(** X15. Appending a clause with [addclause] cannot change the outcome of a
    rule that matched, nor of a rule that was abandoned on the
    data-unavailable signal; otherwise the new clause alone decides, from
    the state the earlier clauses left. *)
Theorem addclause_check (r : Rule) (rc : RClause) (w w' : World) (b : bool) :
  check E r w = Ret b w' ->
  check E (addclause r rc) w
  = if b || rulemiss (ctx w') then Ret b w' else check_loop E [rc] w'.
Proof.
  unfold check, bind at 1 2. cbn [modifyCtx addclause clauses]. intros H.
  apply check_loop_app; [reflexivity | exact H].
Qed.

End CheckOutcomes.

Lemma check_outcome_witness :
  (true = false ->
   withprops (ctx (withCtx (mergeWiths {[ "message" := "Hi" ]})
                           (withCtx (set_rulemiss false) Sample.world)))
   = withprops (ctx Sample.world))
  /\ (true = true ->
      rulemiss (ctx (withCtx (mergeWiths {[ "message" := "Hi" ]})
                             (withCtx (set_rulemiss false) Sample.world)))
      = false
      /\ exists cl, cl ∈ clauses (Sample.rule AllN)
           /\ withprops (ctx (withCtx (mergeWiths {[ "message" := "Hi" ]})
                                (withCtx (set_rulemiss false) Sample.world)))
              = withs cl ∪ withprops (ctx Sample.world)).
Proof.
  apply (check_outcome Sample.collab (Sample.rule AllN) Sample.world).
  reflexivity.
Defined.

Lemma check_first_match_witness :
  check Sample.collab
        {| clauses := [Sample.helloClause; Sample.allClause; Sample.fileClause];
           result := aNoresult; requires := pMfrom; deferto := pAny |}
        Sample.world
  = Ret true (withCtx (mergeWiths (withs Sample.allClause))
                {| ctx := set_rulemiss false Sample.context;
                   calls := [EvMatchList "other.example"] |}).
Proof.
  apply (check_first_match Sample.collab _ Sample.world
           {| ctx := set_rulemiss false Sample.context;
              calls := [EvMatchList "other.example"] |}
           {| ctx := set_rulemiss false Sample.context;
              calls := [EvMatchList "other.example"] |}
           [Sample.helloClause] [Sample.fileClause] Sample.allClause).
  - reflexivity.
  - reflexivity.
  - reflexivity.
  - reflexivity.
Defined.

Lemma check_no_match_witness :
  check Sample.collab
        {| clauses := [Sample.helloClause];
           result := aReject; requires := pHelo; deferto := pAny |}
        Sample.world
  = Ret false {| ctx := set_rulemiss false Sample.context;
                 calls := [EvMatchList "other.example"] |}
  /\ withprops (set_rulemiss false Sample.context)
     = withprops (ctx Sample.world).
Proof.
  apply (check_no_match Sample.collab
           {| clauses := [Sample.helloClause];
              result := aReject; requires := pHelo; deferto := pAny |}
           Sample.world
           {| ctx := set_rulemiss false Sample.context;
              calls := [EvMatchList "other.example"] |}).
  reflexivity.
Defined.

Lemma addclause_check_witness :
  check Sample.collab
        (addclause {| clauses := [Sample.helloClause];
                      result := aReject; requires := pHelo; deferto := pAny |}
                   Sample.allClause)
        Sample.world
  = check_loop Sample.collab [Sample.allClause]
      {| ctx := set_rulemiss false Sample.context;
         calls := [EvMatchList "other.example"] |}.
Proof.
  apply (addclause_check Sample.collab
           {| clauses := [Sample.helloClause];
              result := aReject; requires := pHelo; deferto := pAny |}
           Sample.allClause Sample.world
           {| ctx := set_rulemiss false Sample.context;
              calls := [EvMatchList "other.example"] |} false).
  reflexivity.
Defined.

(* ===================================================================== *)
(** ** Strings: fields, indices and slices *)
(* ===================================================================== *)

Lemma append_String (ch : ascii) (a b : string) :
  String ch a +:+ b = String ch (a +:+ b).
Proof. reflexivity. Qed.

Lemma length_append (a b : string) :
  String.length (a +:+ b) = String.length a + String.length b.
Proof.
  induction a as [|ch a IH]; [reflexivity|].
  rewrite append_String. cbn [String.length]. rewrite IH. reflexivity.
Qed.

Lemma append_snoc (a b : string) (ch : ascii) :
  (a +:+ String ch EmptyString) +:+ b = a +:+ String ch b.
Proof.
  induction a as [|c0 a IH]; [reflexivity|].
  rewrite !append_String, IH. reflexivity.
Qed.

(** A string with no separator is one field. *)
Lemma Split_no_sep (sep : ascii) (s : string) :
  countByte sep s = 0 -> GoStr.Split sep s = [s].
Proof.
  induction s as [|ch s IH]; cbn [countByte GoStr.Split]; [reflexivity|].
  destruct (Ascii.eqb ch sep); [discriminate|].
  intros H. rewrite (IH H). reflexivity.
Qed.

(** The first field ends at the first separator. *)
Lemma Split_first_field (sep : ascii) (a rest : string) :
  countByte sep a = 0 ->
  GoStr.Split sep (a +:+ String sep rest) = a :: GoStr.Split sep rest.
Proof.
  induction a as [|ch a IH]; intros H.
  - change (EmptyString +:+ String sep rest) with (String sep rest).
    cbn [GoStr.Split]. rewrite Ascii.eqb_refl. reflexivity.
  - rewrite append_String. cbn [countByte] in H. cbn [GoStr.Split].
    destruct (Ascii.eqb ch sep); [discriminate|].
    rewrite (IH H). reflexivity.
Qed.

(** [IndexByte] finds the first occurrence. *)
Lemma IndexByte_first (c : ascii) (l r : string) :
  countByte c l = 0 ->
  GoStr.IndexByte (l +:+ String c r) c = GoStr.len l.
Proof.
  induction l as [|ch l IH]; intros H.
  - change (EmptyString +:+ String c r) with (String c r).
    cbn [GoStr.IndexByte]. rewrite Ascii.eqb_refl. reflexivity.
  - rewrite append_String. cbn [countByte] in H. cbn [GoStr.IndexByte].
    destruct (Ascii.eqb ch c); [discriminate|].
    rewrite (IH H), len_String. pose proof (len_nonneg l).
    destruct (Z.ltb_spec (GoStr.len l) 0); [lia | reflexivity].
Qed.

Lemma substring_all (s : string) : String.substring 0 (String.length s) s = s.
Proof.
  induction s as [|ch s IH]; [reflexivity|].
  cbn [String.length String.substring]. rewrite IH. reflexivity.
Qed.

Lemma substring_skip (l r : string) (m : nat) :
  String.substring (String.length l) m (l +:+ r) = String.substring 0 m r.
Proof.
  induction l as [|ch l IH]; [reflexivity|].
  rewrite append_String. cbn [String.length String.substring]. exact IH.
Qed.

(** [s[len(l):]] of [l] followed by [r] is [r]. *)
Lemma sliceFrom_append (l r : string) :
  GoStr.sliceFrom (l +:+ r) (GoStr.len l) = Some r.
Proof.
  unfold GoStr.sliceFrom, GoStr.len. rewrite length_append.
  destruct (Z.ltb_spec (Z.of_nat (String.length l)) 0); [lia|].
  destruct (Z.ltb_spec (Z.of_nat (String.length l + String.length r))
                       (Z.of_nat (String.length l))); [lia|].
  cbn [orb]. rewrite Nat2Z.id.
  replace (String.length l + String.length r - String.length l)
    with (String.length r) by lia.
  rewrite substring_skip, substring_all. reflexivity.
Qed.

(** Appending the same suffix is injective. *)
Lemma append_inj_r (t a b : string) : a +:+ t = b +:+ t -> a = b.
Proof.
  revert b. induction a as [|ch a IH]; intros [|ch' b] H.
  - reflexivity.
  - apply (f_equal String.length) in H.
    rewrite !length_append in H. cbn [String.length] in H. lia.
  - apply (f_equal String.length) in H.
    rewrite !length_append in H. cbn [String.length] in H. lia.
  - rewrite !append_String in H. inversion H; subst.
    f_equal. apply IH. assumption.
Qed.

Lemma dblQuery_inj (domain a b : string) :
  dblQuery domain a = dblQuery domain b -> a = b.
Proof. unfold dblQuery. apply append_inj_r. Qed.

(* ===================================================================== *)
(** ** The blocklist matchers *)
(* ===================================================================== *)

Section Blocklists.

Variable E : Collab.

(** X16. For a remote IP string of four dot-free fields [a.b.c.d],
    [DNSblN.Eval] makes exactly one probe, for the name [d.c.b.a.DOMAIN]
    (the fields reversed); it returns the probe's answer and records the
    blocklist domain exactly when the probe hits. *)
Theorem DNSblN_Eval_reversed (domain a b c d : string) (w : World) :
  countByte "." a = 0 -> countByte "." b = 0 ->
  countByte "." c = 0 -> countByte "." d = 0 ->
  rip (trans (ctx w)) = a +:+ "." +:+ b +:+ "." +:+ c +:+ "." +:+ d ->
  let q := d +:+ "." +:+ c +:+ "." +:+ b +:+ "." +:+ a +:+ "." +:+ domain in
  Eval E (DNSblN domain) w
  = Ret (getDnsblRes E q)
        {| ctx := if getDnsblRes E q then addDnsblHit domain (ctx w)
                  else ctx w;
           calls := calls w ++ [EvDnsblRes q] |}.
Proof.
  intros Ha Hb Hc Hd Hrip q. cbn [Eval]. unfold DNSblN_Eval, bind, getCtx.
  rewrite Hrip.
  change ("." +:+ b +:+ "." +:+ c +:+ "." +:+ d)
    with (String "." (b +:+ String "." (c +:+ String "." d))).
  rewrite (Split_first_field _ _ _ Ha), (Split_first_field _ _ _ Hb),
    (Split_first_field _ _ _ Hc), (Split_no_sep _ _ Hd).
  destruct (String.eqb_spec
              (a +:+ String "." (b +:+ String "." (c +:+ String "." d)))
              EmptyString) as [Hempty|_].
  { apply (f_equal String.length) in Hempty.
    rewrite length_append in Hempty. cbn in Hempty. lia. }
  cbn [length Nat.eqb negb index lookup list_lookup orPanic ret].
  unfold callDnsblRes, bind, emit, ret, modifyCtx. cbn [ctx calls].
  fold q. destruct (getDnsblRes E q); reflexivity.
Qed.

(** X17. When there is nothing to check, [DblNode.Eval] returns false and
    makes no probe: the HELO source is not selected or the HELO name is
    empty; the host source is not selected or the three reverse-DNS lists
    are empty; the from source is not selected, or MAIL FROM is empty, or
    its address attributes carry no domain-validity bit. *)
Theorem DblNode_Eval_nothing_to_check (domain : string) (src : Option)
    (w : World) :
  (N.land src (N.lor oEhlo oHelo) = 0%N \/ heloname (ctx w) = EmptyString) ->
  (N.land src oHost <> oHost \/ rdnsNames (ctx w) = []) ->
  (N.land src oFrom <> oFrom \/ from (ctx w) = EmptyString
   \/ N.land (getAddrOpts E (from (ctx w)) (ctx w))
             (N.lor (N.lor oDomainValid oDomainInvalid) oDomainTempfail)
      = 0%N) ->
  Eval E (DblNode domain src) w = Ret false w.
Proof.
  intros Hhelo Hhost Hfrom. cbn [Eval]. unfold DblNode_Eval, bind, getCtx.
  assert (Hck : DblNode_check E src (ctx w) = Some ∅).
  { unfold DblNode_check.
    assert (H1 : negb (N.eqb (N.land src (N.lor oEhlo oHelo)) 0)
                 && negb (String.eqb (heloname (ctx w)) EmptyString) = false).
    { destruct Hhelo as [-> | ->]; [reflexivity|].
      rewrite String.eqb_refl. apply andb_false_r. }
    rewrite H1.
    assert (H2 : (if N.eqb (N.land src oHost) oHost then
                    match addChopped (verified (rdns (trans (ctx w)))) ∅ with
                    | Some ck =>
                        match addChopped (nofwd (rdns (trans (ctx w)))) ck with
                        | Some ck' =>
                            addChopped (inconsist (rdns (trans (ctx w)))) ck'
                        | None => None
                        end
                    | None => None
                    end
                  else Some ∅) = Some (∅ : gset string)).
    { destruct (N.eqb_spec (N.land src oHost) oHost) as [Hh|_]; [|reflexivity].
      destruct Hhost as [Hn|Hnil]; [contradiction|].
      unfold rdnsNames in Hnil.
      apply app_eq_nil in Hnil as [-> Hnil].
      apply app_eq_nil in Hnil as [-> ->]. reflexivity. }
    rewrite H2.
    destruct (N.eqb_spec (N.land src oFrom) oFrom) as [Hf|_]; [|reflexivity].
    destruct Hfrom as [Hn|[-> | ->]]; [contradiction| |].
    - reflexivity.
    - destruct (negb (String.eqb (from (ctx w)) EmptyString)); reflexivity. }
  rewrite Hck. reflexivity.
Qed.

(** [DblNode.Eval] under a well-behaved [range]: the probes of the
    candidates, in the order the [range] yields them. *)
Lemma DblNode_Eval_ok (domain : string) (src : Option) (w : World)
    (ck : gset string) :
  rangeOrder_ok E ->
  DblNode_check E src (ctx w) = Some ck ->
  Eval E (DblNode domain src) w
  = Ret (existsb (dblListed E domain) (rangeOrder E ck))
        {| ctx := Nat.iter (countHits E domain (rangeOrder E ck))
                           (addDnsblHit domain) (ctx w);
           calls := calls w ++ probeEvents domain (rangeOrder E ck) |}.
Proof.
  intros Hord Hck. cbn [Eval]. unfold DblNode_Eval, bind, getCtx.
  rewrite Hck. cbn [orPanic]. unfold ret at 1.
  destruct (Nat.eqb_spec (size ck) 0) as [Hsz|Hsz].
  - apply size_empty_inv in Hsz. apply leibniz_equiv in Hsz. subst ck.
    pose proof (Hord ∅) as Hp. rewrite elements_empty in Hp.
    symmetry in Hp. apply Permutation_nil in Hp. rewrite Hp.
    unfold ret, countHits, probeEvents. cbn. rewrite app_nil_r.
    destruct w; reflexivity.
  - rewrite DblNode_probe_spec. reflexivity.
Qed.

(** X18. One [DblNode.Eval] never asks the blocklist twice about the same
    name, although several sources may yield the same domain: the probes it
    appends to the call log are pairwise distinct. *)
Theorem DblNode_Eval_no_duplicate_probe (domain : string) (src : Option)
    (w w' : World) (b : bool) :
  rangeOrder_ok E ->
  Eval E (DblNode domain src) w = Ret b w' ->
  exists probes, calls w' = calls w ++ probes /\ NoDup probes.
Proof.
  intros Hord Hev.
  destruct (DblNode_check E src (ctx w)) as [ck|] eqn:Hck.
  - rewrite (DblNode_Eval_ok _ _ _ _ Hord Hck) in Hev.
    inversion Hev; subst. cbn [calls].
    exists (probeEvents domain (rangeOrder E ck)). split; [reflexivity|].
    unfold probeEvents. apply NoDup_fmap_2.
    + intros x y Hxy. inversion Hxy as [Hq]. exact (dblQuery_inj _ _ _ Hq).
    + rewrite (Hord ck). apply NoDup_elements.
  - apply (proj2 (DblNode_Eval_Panic E domain src w)) in Hck. congruence.
Qed.

(** X19. With only the from source selected, for a MAIL FROM address
    [local@dom] whose local part has no '@' and whose attributes carry a
    domain-validity bit, [DblNode.Eval] probes exactly [dom.DOMAIN], what
    follows the first '@'; it returns the answer and records the DBL domain
    exactly on a hit. *)
Theorem DblNode_Eval_from_domain (domain local dom : string) (w : World) :
  rangeOrder_ok E ->
  countByte "@" local = 0 ->
  from (ctx w) = local +:+ "@" +:+ dom ->
  N.land (getAddrOpts E (from (ctx w)) (ctx w))
         (N.lor (N.lor oDomainValid oDomainInvalid) oDomainTempfail) <> 0%N ->
  Eval E (DblNode domain oFrom) w
  = Ret (dblListed E domain dom)
        {| ctx := if dblListed E domain dom then addDnsblHit domain (ctx w)
                  else ctx w;
           calls := calls w ++ [EvDnsblRes (dblQuery domain dom)] |}.
Proof.
  intros Hord Hlocal Hfrom Hopts.
  assert (Hck : DblNode_check E oFrom (ctx w) = Some {[ dom ]}).
  { unfold DblNode_check.
    change (N.land oFrom (N.lor oEhlo oHelo)) with 0%N.
    change (N.eqb (N.land oFrom oHost) oHost) with false.
    change (N.eqb (N.land oFrom oFrom) oFrom) with true.
    cbn [N.eqb negb andb].
    destruct (String.eqb_spec (from (ctx w)) EmptyString) as [Hempty|_].
    { rewrite Hfrom in Hempty. apply (f_equal String.length) in Hempty.
      change ("@" +:+ dom) with (String "@" dom) in Hempty.
      rewrite length_append in Hempty. cbn [String.length] in Hempty. lia. }
    cbn [negb].
    destruct (N.eqb_spec (N.land (getAddrOpts E (from (ctx w)) (ctx w))
                (N.lor (N.lor oDomainValid oDomainInvalid) oDomainTempfail)) 0)
      as [H0|_]; [contradiction|].
    cbn [negb]. rewrite Hfrom.
    change ("@" +:+ dom) with (String "@" dom).
    rewrite (IndexByte_first _ _ _ Hlocal).
    rewrite <- (append_snoc local dom "@").
    replace (GoStr.len local + 1)%Z
      with (GoStr.len (local +:+ String "@" EmptyString))
      by (unfold GoStr.len; rewrite length_append; cbn; lia).
    rewrite sliceFrom_append. f_equal. apply (right_id_L ∅ (∪)). }
  rewrite (DblNode_Eval_ok _ _ _ _ Hord Hck).
  pose proof (Hord {[ dom ]}) as Hp. rewrite elements_singleton in Hp.
  apply Permutation_singleton_r in Hp. rewrite Hp.
  unfold countHits, probeEvents. cbn [existsb List.filter map].
  destruct (dblListed E domain dom); reflexivity.
Qed.

End Blocklists.

Lemma DNSblN_Eval_reversed_witness :
  let w := withCtx (fun c =>
      {| trans := {| rip := "192.0.2.7"; tlson := false;
                     rdns := rdns (trans c) |};
         heloname := heloname c; from := from c; rcptto := rcptto c;
         withprops := withprops c; rulemiss := false;
         dnsblhit := dnsblhit c |}) Sample.world in
  Eval Sample.collab (DNSblN "dnsbl.test") w
  = Ret (getDnsblRes Sample.collab "7.2.0.192.dnsbl.test")
        {| ctx := if getDnsblRes Sample.collab "7.2.0.192.dnsbl.test"
                  then addDnsblHit "dnsbl.test" (ctx w) else ctx w;
           calls := calls w ++ [EvDnsblRes "7.2.0.192.dnsbl.test"] |}.
Proof.
  intros w.
  apply (DNSblN_Eval_reversed Sample.collab "dnsbl.test" "192" "0" "2" "7" w);
    reflexivity.
Defined.

Lemma DblNode_Eval_nothing_to_check_witness :
  Eval Sample.collab (DblNode "dbl.test" oHelo)
       (withCtx (fun c =>
          {| trans := trans c; heloname := EmptyString; from := from c;
             rcptto := rcptto c; withprops := withprops c;
             rulemiss := rulemiss c; dnsblhit := dnsblhit c |}) Sample.world)
  = Ret false
        (withCtx (fun c =>
          {| trans := trans c; heloname := EmptyString; from := from c;
             rcptto := rcptto c; withprops := withprops c;
             rulemiss := rulemiss c; dnsblhit := dnsblhit c |}) Sample.world).
Proof.
  apply DblNode_Eval_nothing_to_check.
  - right. reflexivity.
  - left. vm_compute. discriminate.
  - left. vm_compute. discriminate.
Defined.

Lemma DblNode_Eval_no_duplicate_probe_witness :
  exists probes,
    calls {| ctx := addDnsblHit "dbl.test" Sample.context;
             calls := [EvDnsblRes "spam.example.dbl.test";
                       EvDnsblRes "mail.example.dbl.test";
                       EvDnsblRes "example.net.dbl.test"] |}
    = calls Sample.world ++ probes
    /\ NoDup probes.
Proof.
  apply (DblNode_Eval_no_duplicate_probe Sample.collab "dbl.test" oAny
           Sample.world _ true).
  - intros s. reflexivity.
  - vm_compute. reflexivity.
Defined.

Lemma DblNode_Eval_from_domain_witness :
  Eval Sample.collab (DblNode "dbl.test" oFrom) Sample.world
  = Ret (dblListed Sample.collab "dbl.test" "example.net")
        {| ctx := if dblListed Sample.collab "dbl.test" "example.net"
                  then addDnsblHit "dbl.test" (ctx Sample.world)
                  else ctx Sample.world;
           calls := calls Sample.world
                      ++ [EvDnsblRes (dblQuery "dbl.test" "example.net")] |}.
Proof.
  apply (DblNode_Eval_from_domain Sample.collab "dbl.test" "joe" "example.net"
           Sample.world).
  - intros s. reflexivity.
  - reflexivity.
  - reflexivity.
  - vm_compute. discriminate.
Defined.

(* ===================================================================== *)
(** ** More on mail-domain validity *)
(* ===================================================================== *)

Section ValidityMore.

Variable R : Resolver.

Lemma checkIP_addrs_good_iff (domain : string) (addrs : list IP) :
  fst (checkIP_addrs R domain addrs) = dnsGood
  <-> Forall (acceptableIP R) addrs.
Proof.
  induction addrs as [|i rest IH]; cbn [checkIP_addrs].
  - split; [constructor | reflexivity].
  - destruct (IsGlobalUnicast R i) eqn:Hg; cbn [negb].
    + destruct (Contains R net10 i) eqn:H10;
        [|destruct (Contains R net172 i) eqn:H172;
          [|destruct (Contains R net192 i) eqn:H192;
            [|destruct (Contains R ipv6private i) eqn:Hp;
              [|destruct (Contains R ipv6siteloc i) eqn:Hs]]]];
        cbn [orb fst].
      1-5: split; [discriminate|]; intros H; inversion H as [|? ? [_ Hc] _];
        subst; congruence.
      rewrite IH. split.
      * intros H. constructor; [|exact H]. split; [exact Hg|].
        intros []; assumption.
      * intros H. inversion H; assumption.
    + cbn [fst]. split; [discriminate|].
      intros H. inversion H as [|? ? [Hg' _] _]; subst. congruence.
Qed.

Lemma checkIP_addrs_consistent (domain : string) (addrs : list IP) :
  snd (checkIP_addrs R domain addrs) = None
  <-> fst (checkIP_addrs R domain addrs) = dnsGood.
Proof.
  induction addrs as [|i rest IH]; cbn [checkIP_addrs].
  - split; reflexivity.
  - destruct (negb (IsGlobalUnicast R i)); [split; discriminate|].
    destruct (Contains R net10 i || Contains R net172 i
              || Contains R net192 i || Contains R ipv6private i
              || Contains R ipv6siteloc i); [split; discriminate | exact IH].
Qed.

(** X20. [checkIP] classifies a name good exactly when the lookup succeeds
    with at least one address and every address is global unicast and
    outside the five private blocks: one unacceptable address disqualifies
    the name whatever its other addresses. It reports no error exactly
    when it classifies good. *)
Theorem checkIP_good_iff (domain : string) (tr : list NetCall) :
  (fst (fst (checkIP R domain tr)) = dnsGood
   <-> exists addrs, LookupIP R domain = (addrs, None) /\ addrs <> []
                     /\ Forall (acceptableIP R) addrs)
  /\ (snd (fst (checkIP R domain tr)) = None
      <-> fst (fst (checkIP R domain tr)) = dnsGood).
Proof.
  unfold checkIP. destruct (LookupIP R domain) as [addrs [e|]].
  - destruct (isTemporary e); cbn [fst snd]; split; split;
      try discriminate; intros (a & H & _); discriminate.
  - destruct addrs as [|i rest]; cbn [length Nat.eqb fst snd].
    + split; split; try discriminate. intros (a & H & Hne & _).
      inversion H; subst. contradiction.
    + split; [|apply checkIP_addrs_consistent].
      rewrite checkIP_addrs_good_iff. split.
      * intros H. exists (i :: rest). split; [reflexivity|].
        split; [discriminate | exact H].
      * intros (a & H & _ & Hall). inversion H; subst. exact Hall.
Qed.

Lemma checkIP_consistent (domain : string) (tr : list NetCall) :
  consistent (fst (checkIP R domain tr)).
Proof.
  unfold consistent, checkIP. destruct (LookupIP R domain) as [addrs [e|]].
  - destruct (isTemporary e); cbn [fst snd]; split; try discriminate;
      intros [H|H]; discriminate.
  - destruct (Nat.eqb (length addrs) 0); cbn [fst snd].
    + split; [discriminate|]. intros [H|H]; discriminate.
    + rewrite checkIP_addrs_consistent.
      destruct (checkIP_addrs_class R domain addrs) as [H|H]; rewrite H;
        split; try tauto; intros [?|?]; try assumption; discriminate.
Qed.

Lemma ValidDomain_loop_consistent (domain : string) (mxs : list MX) :
  forall (valid : dnsResult) (verr : option error) (tr : list NetCall),
    consistent (valid, verr) ->
    consistent (fst (ValidDomain_loop R domain mxs valid verr tr)).
Proof.
  induction mxs as [|m rest IH]; intros valid verr tr Hc;
    cbn [ValidDomain_loop].
  - exact Hc.
  - destruct (String.eqb (Host m) "." && N.eqb (Pref m) 0).
    { unfold consistent. cbn. split; [discriminate|].
      intros [H|H]; discriminate. }
    destruct (String.eqb (GoStr.ToLower (Host m)) "."
              || String.eqb (GoStr.ToLower (Host m)) "localhost.").
    { unfold consistent. cbn. split; [discriminate|].
      intros [H|H]; discriminate. }
    pose proof (checkIP_consistent (Host m) tr) as Hm.
    destruct (checkIP R (Host m) tr) as [[v err] tr'].
    destruct (valid <? v)%Z; apply IH; assumption.
Qed.

(** X21. The error [ValidDomain] returns goes with its classification: it
    returns no error exactly when the classification is good or the
    undefined starting value; bad and tempfail always carry an error. *)
Theorem ValidDomain_error_iff (domain : string) (tr : list NetCall) :
  snd (fst (ValidDomain R domain tr)) = None
  <-> (fst (fst (ValidDomain R domain tr)) = dnsGood
       \/ fst (fst (ValidDomain R domain tr)) = dnsUndef).
Proof.
  change (consistent (fst (ValidDomain R domain tr))).
  unfold ValidDomain. destruct (LookupMX R (domain +:+ ".")) as [mxs [e|]].
  - destruct (isTemporary e).
    + unfold consistent. cbn. split; [discriminate|].
      intros [H|H]; discriminate.
    + apply checkIP_consistent.
  - apply ValidDomain_loop_consistent. unfold consistent. cbn. tauto.
Qed.


Lemma rejects_or_not (mxs : list MX) :
  Exists rejectsDomain mxs \/ Forall (fun m => ~ bogusTarget m) mxs.
Proof.
  induction mxs as [|m rest [IH|IH]].
  - right. constructor.
  - left. right. exact IH.
  - destruct (String.eqb (GoStr.ToLower (Host m)) "."
              || String.eqb (GoStr.ToLower (Host m)) "localhost.") eqn:Hb.
    + left. left. right. apply bogus_test_spec, Hb.
    + right. constructor; [|exact IH].
      intros H. apply bogus_test_spec in H. congruence.
Qed.

Lemma rejects_not_both (mxs : list MX) :
  Exists rejectsDomain mxs -> Forall (fun m => ~ bogusTarget m) mxs -> False.
Proof.
  intros Hex Hall. apply Exists_exists in Hex as (m & Hin & Hrej).
  rewrite Forall_forall in Hall. apply (Hall m Hin).
  destruct Hrej as [H|H]; [apply nullMX_bogusTarget, H | exact H].
Qed.

(** The classification of the MX loop, by cases. *)
Lemma ValidDomain_loop_class (domain : string) (mxs : list MX)
    (valid : dnsResult) (verr : option error) (tr : list NetCall) :
  (dnsUndef <= valid)%Z ->
  (Exists rejectsDomain mxs ->
   fst (fst (ValidDomain_loop R domain mxs valid verr tr)) = dnsBad)
  /\ (Forall (fun m => ~ bogusTarget m) mxs ->
      fst (fst (ValidDomain_loop R domain mxs valid verr tr))
      = Z.max valid (bestClass R mxs)).
Proof.
  intros Hpos. split.
  - intros Hex.
    destruct (ValidDomain_loop_rejects R domain mxs valid verr tr Hex)
      as (pre & m & post & e & _ & _ & _ & ->). reflexivity.
  - intros Hok.
    destruct (ValidDomain_loop_best R domain mxs valid verr tr Hok Hpos)
      as (v & e & -> & Hv & _). exact Hv.
Qed.

Lemma bestClass_good_iff (mxs : list MX) :
  bestClass R mxs = dnsGood
  <-> Exists (fun m => fst (targetVerdict R m) = dnsGood) mxs.
Proof.
  unfold bestClass. induction mxs as [|m rest IH]; cbn [map fold_right].
  - split; [discriminate | intros H; inversion H].
  - pose proof (targetVerdict_range R m) as Hr.
    pose proof (bestClass_nonneg R rest) as Hn. unfold bestClass in Hn.
    assert (Hle : (fold_right Z.max dnsUndef
                     (map (fun m => fst (targetVerdict R m)) rest)
                   <= dnsGood)%Z).
    { clear. induction rest as [|m0 r IHr]; cbn [map fold_right].
      - unfold dnsUndef, dnsGood. lia.
      - pose proof (targetVerdict_range R m0). lia. }
    rewrite Exists_cons, <- IH. unfold dnsBad, dnsGood, dnsUndef in *. lia.
Qed.

(** X23. [ValidDomain] classifies a domain good in exactly two cases: the
    MX lookup succeeds, no record is rejected and at least one target is
    good under [checkIP]; or the MX lookup fails with an error that is not
    temporary and [checkIP] of the domain itself is good. In particular one
    good MX target suffices whatever the other targets resolve to, and one
    rejected record spoils the domain whatever the others are. *)
Theorem ValidDomain_good_iff (domain : string) (tr : list NetCall)
    (mxs : list MX) (err : option error) :
  LookupMX R (domain +:+ ".") = (mxs, err) ->
  (fst (fst (ValidDomain R domain tr)) = dnsGood
   <-> (err = None /\ Forall (fun m => ~ bogusTarget m) mxs
        /\ Exists (fun m => fst (targetVerdict R m) = dnsGood) mxs)
       \/ (exists e, err = Some e /\ isTemporary e = false
                     /\ fst (fst (checkIP R (domain +:+ ".") [])) = dnsGood)).
Proof.
  intros Hmx. unfold ValidDomain. rewrite Hmx. destruct err as [e|].
  - destruct (isTemporary e) eqn:Ht.
    + cbn [fst]. split; [discriminate|].
      intros [(H & _)|(e' & H & Ht' & _)]; [discriminate|].
      inversion H; subst. congruence.
    + rewrite checkIP_trace. cbn [fst]. split.
      * intros H. right. exists e. auto.
      * intros [(H & _)|(e' & _ & _ & H)]; [discriminate | exact H].
  - destruct (ValidDomain_loop_class domain mxs dnsUndef None
                (tr ++ [CallLookupMX (domain +:+ ".")])) as [Hrej Hbest];
      [lia|].
    destruct (rejects_or_not mxs) as [Hex|Hok].
    + rewrite (Hrej Hex). split; [discriminate|].
      intros [(_ & Hall & _)|(e' & H & _)]; [|discriminate].
      destruct (rejects_not_both mxs Hex Hall).
    + rewrite (Hbest Hok). pose proof (bestClass_nonneg R mxs) as Hn.
      rewrite Z.max_r by exact Hn. rewrite bestClass_good_iff. split.
      * intros H. left. auto.
      * intros [(_ & _ & H)|(e' & H & _)]; [exact H | discriminate].
Qed.

Lemma bestClass_Permutation (mxs mxs' : list MX) :
  mxs ≡ₚ mxs' -> bestClass R mxs = bestClass R mxs'.
Proof.
  unfold bestClass.
  induction 1 as [|x l l' _ IH|x y l|l l' l'' _ IH1 _ IH2];
    cbn [map fold_right]; lia.
Qed.

End ValidityMore.

Lemma checkIP_withMX (R : Resolver) (mx : string -> list MX * option error)
    (domain : string) (tr : list NetCall) :
  checkIP (withMX R mx) domain tr = checkIP R domain tr.
Proof.
  unfold checkIP. cbn [LookupIP withMX].
  destruct (LookupIP R domain) as [addrs [e|]]; [reflexivity|].
  destruct (Nat.eqb (length addrs) 0); [reflexivity|]. f_equal.
  induction addrs as [|i rest IH]; cbn [checkIP_addrs]; [reflexivity|].
  cbn [IsGlobalUnicast Contains IP_String withMX]. rewrite IH. reflexivity.
Qed.

(** X24. The classification [ValidDomain] returns does not depend on the
    order in which the resolver lists the MX records (the error and the
    order of the lookups may). *)
Theorem ValidDomain_class_order (R : Resolver) (domain : string)
    (tr : list NetCall) (mxs mxs' : list MX) (err : option error) :
  LookupMX R (domain +:+ ".") = (mxs, err) ->
  mxs ≡ₚ mxs' ->
  fst (fst (ValidDomain (withMX R (fun _ => (mxs', err))) domain tr))
  = fst (fst (ValidDomain R domain tr)).
Proof.
  intros Hmx Hperm. unfold ValidDomain. rewrite Hmx.
  cbn [LookupMX withMX]. destruct err as [e|].
  - destruct (isTemporary e); [reflexivity|].
    rewrite checkIP_withMX. reflexivity.
  - set (tr' := tr ++ [CallLookupMX (domain +:+ ".")]).
    assert (Hsame : forall l v e t,
               ValidDomain_loop (withMX R (fun _ => (mxs', None))) domain l v e t
               = ValidDomain_loop R domain l v e t).
    { induction l as [|m rest IH]; intros v e t; cbn [ValidDomain_loop];
        [reflexivity|].
      rewrite checkIP_withMX.
      destruct (checkIP R (Host m) t) as [[v1 e1] t1].
      rewrite !IH. reflexivity. }
    rewrite Hsame.
    destruct (ValidDomain_loop_class R domain mxs dnsUndef None tr')
      as [Hrej Hbest]; [lia|].
    destruct (ValidDomain_loop_class R domain mxs' dnsUndef None tr')
      as [Hrej' Hbest']; [lia|].
    destruct (rejects_or_not mxs) as [Hex|Hok].
    + rewrite (Hrej Hex). apply Hrej'.
      apply Exists_exists in Hex as (m & Hin & Hm).
      apply Exists_exists. exists m. split; [|exact Hm].
      rewrite <- Hperm. exact Hin.
    + rewrite (Hbest Hok), Hbest'.
      * rewrite (bestClass_Permutation R _ _ Hperm). reflexivity.
      * rewrite Forall_forall in *. intros m Hin. apply Hok.
        rewrite Hperm. exact Hin.
Qed.

Lemma ValidDomain_good_iff_witness :
  fst (fst (ValidDomain Sample.resolver "two.example" [])) = dnsGood
  <-> ((None : option error) = None
       /\ Forall (fun m => ~ bogusTarget m) Sample.twoMX
       /\ Exists (fun m => fst (targetVerdict Sample.resolver m) = dnsGood)
                 Sample.twoMX)
      \/ (exists e, (None : option error) = Some e /\ isTemporary e = false
                    /\ fst (fst (checkIP Sample.resolver
                                   ("two.example" +:+ ".") [])) = dnsGood).
Proof.
  apply (ValidDomain_good_iff Sample.resolver "two.example" []
           Sample.twoMX None).
  reflexivity.
Defined.

Lemma ValidDomain_class_order_witness :
  fst (fst (ValidDomain
              (withMX Sample.resolver
                      (fun _ => (rev Sample.nullRouteMX, None)))
              "null.example" []))
  = fst (fst (ValidDomain Sample.resolver "null.example" [])).
Proof.
  apply (ValidDomain_class_order Sample.resolver "null.example" []
           Sample.nullRouteMX (rev Sample.nullRouteMX) None).
  - reflexivity.
  - apply Permutation_rev.
Defined.

(* ===================================================================== *)
(** ** Lookups made by [ValidDomain] *)
(* ===================================================================== *)



(* ===================================================================== *)
(** ** Sources of [DblNode.Eval] *)
(* ===================================================================== *)

(** The walk over a name list adds to what is there. *)
Lemma addChopped_union (names : list string) :
  forall ck, addChopped names ck
             = (fun s : gset string => s ∪ ck) <$> addChopped names ∅.
Proof.
  induction names as [|n rest IH]; intros ck; cbn [addChopped].
  - cbn. f_equal. symmetry. apply (left_id_L ∅ (∪)).
  - destruct (chopDot n) as [t|]; [|reflexivity].
    rewrite (IH ({[ t ]} ∪ ck)), (IH ({[ t ]} ∪ ∅)).
    destruct (addChopped rest ∅) as [s|]; [|reflexivity].
    cbn. f_equal. rewrite (right_id_L ∅ (∪)). apply (assoc_L (∪)).
Qed.

(** The three walks of the host source are one walk over the three lists
    put end to end. *)
Lemma host_walk (c : Context) (ck : gset string) :
  match addChopped (verified (rdns (trans c))) ck with
  | Some ck1 =>
      match addChopped (nofwd (rdns (trans c))) ck1 with
      | Some ck2 => addChopped (inconsist (rdns (trans c))) ck2
      | None => None
      end
  | None => None
  end
  = addChopped (rdnsNames c) ck.
Proof.
  unfold rdnsNames. rewrite addChopped_app.
  destruct (addChopped (verified (rdns (trans c))) ck); [|reflexivity].
  rewrite addChopped_app. reflexivity.
Qed.

Local Set Warnings "-clear-no-such-hyp".

(** X26. The sources of [dbl]: [helo] and [ehlo] select the same source,
    and the candidate map of [any] is the union of the candidate maps of
    the three sources [ehlo], [host] and [from], so a name that several
    sources yield is one candidate. *)
Theorem DblNode_check_sources (E : Collab) (c : Context) :
  DblNode_check E oHelo c = DblNode_check E oEhlo c
  /\ DblNode_check E oAny c
     = match DblNode_check E oEhlo c, DblNode_check E oHost c,
             DblNode_check E oFrom c with
       | Some h, Some r, Some f => Some (f ∪ r ∪ h)
       | _, _, _ => None
       end.
Proof.
  split; [reflexivity|]. unfold DblNode_check.
  change (N.land oAny (N.lor oEhlo oHelo)) with oEhlo.
  change (N.land oEhlo (N.lor oEhlo oHelo)) with oEhlo.
  change (N.land oHost (N.lor oEhlo oHelo)) with 0%N.
  change (N.land oFrom (N.lor oEhlo oHelo)) with 0%N.
  change (N.eqb (N.land oAny oHost) oHost) with true.
  change (N.eqb (N.land oEhlo oHost) oHost) with false.
  change (N.eqb (N.land oHost oHost) oHost) with true.
  change (N.eqb (N.land oFrom oHost) oHost) with false.
  change (N.eqb (N.land oAny oFrom) oFrom) with true.
  change (N.eqb (N.land oEhlo oFrom) oFrom) with false.
  change (N.eqb (N.land oHost oFrom) oFrom) with false.
  change (N.eqb (N.land oFrom oFrom) oFrom) with true.
  change (N.eqb oEhlo 0) with false. change (N.eqb 0 0) with true.
  cbn [negb andb].
  set (h := if negb (String.eqb (heloname c) EmptyString)
            then {[ heloname c ]} ∪ (∅ : gset string) else ∅).
  cbv iota. rewrite !host_walk.
  rewrite (addChopped_union (rdnsNames c) h).
  destruct (addChopped (rdnsNames c) ∅) as [r|]; [|reflexivity].
  cbn [fmap option_fmap option_map].
  destruct (negb (String.eqb (from c) EmptyString)); [|f_equal; set_solver].
  destruct (negb (N.eqb (N.land (getAddrOpts E (from c) c)
              (N.lor (N.lor oDomainValid oDomainInvalid) oDomainTempfail)) 0));
    [|f_equal; set_solver].
  destruct (GoStr.sliceFrom (from c) (GoStr.IndexByte (from c) "@" + 1))
    as [t|]; [f_equal; set_solver | reflexivity].
Qed.

(* ===================================================================== *)
(** ** Names of phases and actions *)
(* ===================================================================== *)

(** X27. Every phase and every action has a name in its table (the lookup
    never falls back to the empty string), and different phases, like
    different actions, have different names, so a rendered rule tells them
    apart. *)
Theorem Phase_Action_String_inj :
  (forall p, Phase_String p <> EmptyString)
  /\ (forall p q, Phase_String p = Phase_String q -> p = q)
  /\ (forall a, Action_String a <> EmptyString)
  /\ (forall a b, Action_String a = Action_String b -> a = b).
Proof.
  repeat split.
  - intros []; discriminate.
  - intros [] []; cbn; intros H; try reflexivity; discriminate H.
  - intros []; discriminate.
  - intros [] []; cbn; intros H; try reflexivity; discriminate H.
Qed.

(* ===================================================================== *)
(** ** Rendering rules as text *)
(* ===================================================================== *)

Example RClause_String_note :
  RClause_String Sample.revEntries elements Sample.noteClause
  = "( dbl from,host dbl.test not tls on ) with make-yakker message "
      +:+ dquote +:+ "Hi" +:+ dquote +:+ " note " +:+ dquote +:+ "listed"
      +:+ dquote.
Proof. vm_compute. reflexivity. Qed.

Example Rule_String_trap :
  Rule_String Sample.revEntries elements Sample.trapRule
  = "set-with helo other.example; not from /missing/file with message "
      +:+ dquote +:+ "Hi" +:+ dquote +:+ "; all with message "
      +:+ dquote +:+ "Bye" +:+ dquote.
Proof. vm_compute. reflexivity. Qed.

Example Option_String_groups :
  Option_String Sample.revEntries (N.lor oAny oQuoted) = "any,quoted".
Proof. vm_compute. reflexivity. Qed.

(** Sorting forgets the order of its input. *)
Lemma sortStrings_Permutation (l1 l2 : list string) :
  l1 ≡ₚ l2 -> sortStrings l1 = sortStrings l2.
Proof.
  intros H. unfold sortStrings.
  apply (Sorted_unique String.le); try apply Sorted_merge_sort; try apply _.
  rewrite !merge_sort_Permutation. exact H.
Qed.

Lemma revNames_Permutation (e1 e2 : list (Option * string)) (opts : Option) :
  e1 ≡ₚ e2 -> revNames e1 opts ≡ₚ revNames e2 opts.
Proof.
  induction 1 as [|[k v] l l' _ IH|[k v] [k' v'] l|l l' l'' _ IH1 _ IH2];
    cbn [revNames].
  - reflexivity.
  - destruct (N.eqb (N.land k opts) k); [constructor|]; exact IH.
  - destruct (N.eqb (N.land k opts) k), (N.eqb (N.land k' opts) k');
      try reflexivity. apply perm_swap.
  - etrans; eassumption.
Qed.

Lemma Option_String_Permutation (e1 e2 : list (Option * string))
    (opts : Option) :
  e1 ≡ₚ e2 -> Option_String e1 opts = Option_String e2 opts.
Proof.
  intros H. unfold Option_String.
  destruct (N.eqb (N.land opts oBad) oBad);
    destruct (N.eqb (N.land _ oIp) oIp);
    destruct (N.eqb (N.land _ oAny) oAny);
    f_equal; apply sortStrings_Permutation, Permutation_app_head,
      revNames_Permutation, H.
Qed.

Lemma Expr_String_Permutation (e1 e2 : list (Option * string)) (e : Expr) :
  e1 ≡ₚ e2 -> Expr_String e1 e = Expr_String e2 e.
Proof.
  intros H.
  induction e as [nodes IH|node IH|l r IHl IHr| |on|domain
                  |what arg matcher getter|arg h e f IHh IHe IHf
                  |domain src|what opts getter] using Expr_nested_ind;
    cbn [Expr_String]; try reflexivity.
  - do 3 f_equal. induction IH as [|n ns Hn _ IHns]; cbn [map];
      [reflexivity|]. rewrite Hn, IHns. reflexivity.
  - rewrite IH. reflexivity.
  - rewrite IHl, IHr. reflexivity.
  - rewrite (Option_String_Permutation _ _ _ H). reflexivity.
  - rewrite (Option_String_Permutation _ _ _ H). reflexivity.
Qed.

(** X28. The text of a rule does not depend on Go's map iteration order:
    for two enumerations of the reverse option table and two iteration
    orders over the with-maps, [Rule.String] (and with it
    [RClause.String], [Expr.String] and [Option.String]) gives the same
    string, because the names and the keys are sorted before they are
    joined. *)
Theorem Rule_String_order (entries1 entries2 : list (Option * string))
    (ord1 ord2 : gset string -> list string) (r : Rule) :
  entries1 ≡ₚ entries2 ->
  (forall s : gset string, ord1 s ≡ₚ elements s) ->
  (forall s : gset string, ord2 s ≡ₚ elements s) ->
  Rule_String entries1 ord1 r = Rule_String entries2 ord2 r.
Proof.
  intros He H1 H2.
  assert (Hcl : forall rc, RClause_String entries1 ord1 rc
                           = RClause_String entries2 ord2 rc).
  { intros rc. unfold RClause_String.
    rewrite (Expr_String_Permutation _ _ _ He).
    rewrite (sortStrings_Permutation (ord1 (dom (withs rc)))
                                     (ord2 (dom (withs rc))))
      by (rewrite H1, H2; reflexivity).
    reflexivity. }
  unfold Rule_String.
  assert (Hmap : map (RClause_String entries1 ord1) (clauses r)
                 = map (RClause_String entries2 ord2) (clauses r)).
  { apply map_ext. exact Hcl. }
  rewrite Hmap. reflexivity.
Qed.

Lemma append_nil_r (s : string) : s +:+ EmptyString = s.
Proof.
  induction s as [|ch s IH]; [reflexivity|].
  rewrite append_String, IH. reflexivity.
Qed.

(** A clause with no with-option, as [newRClause] makes it, renders as
    its expression alone: there is no trailing [with]. *)
Theorem RClause_String_no_withs (entries : list (Option * string))
    (ord : gset string -> list string) (e : Expr) :
  (forall s : gset string, ord s ≡ₚ elements s) ->
  RClause_String entries ord (newRClause e) = Expr_String entries e.
Proof.
  intros Hord. unfold RClause_String, newRClause. cbn [withs expr].
  rewrite dom_empty_L.
  pose proof (Hord ∅) as Hp. rewrite elements_empty in Hp.
  apply Permutation_nil_r in Hp. rewrite Hp.
  change (sortStrings []) with (@nil string). cbn [withText].
  cbn [String.eqb negb]. apply append_nil_r.
Qed.

Lemma Rule_String_order_witness :
  Rule_String Sample.revEntries elements
    {| clauses := [Sample.noteClause]; result := aReject;
       requires := pMfrom; deferto := pData |}
  = Rule_String (rev Sample.revEntries) (fun s => rev (elements s))
      {| clauses := [Sample.noteClause]; result := aReject;
         requires := pMfrom; deferto := pData |}.
Proof.
  apply Rule_String_order.
  - apply Permutation_rev.
  - intros s. reflexivity.
  - intros s. symmetry. apply Permutation_rev.
Defined.

Lemma RClause_String_no_withs_witness :
  RClause_String Sample.revEntries elements (newRClause (TlsN false))
  = Expr_String Sample.revEntries (TlsN false).
Proof.
  apply RClause_String_no_withs. intros s. reflexivity.
Defined.
